(** * climada.entity.entity: the Entity aggregate

    A shallow embedding of [src/climada/entity/entity.py].  An [Entity]
    bundles four collections (exposures, impact functions, measures and
    discount rates).  The module constructs them, delegates reading and
    checking to them and guards the four attributes with a type test in
    [__setattr__].

    Python objects are mutable and shared by reference, so the embedding
    keeps an explicit store of objects addressed by locations; attributes of
    an [Entity] hold references into that store.  Exceptions are modelled by
    an outcome type, and the calls that leave the module (constructors,
    [read], [check] of the collections and [LOGGER.error]) are recorded in a
    trace so that their order and arguments can be stated. *)

From stdpp Require Import gmap strings list fin_maps.

Set Warnings "-register-all".
Open Scope string_scope.
Open Scope list_scope.

(** ** Values, classes and exceptions *)

Abbreviation loc := positive.

(** The Python values that reach this module: [None], strings (file names,
    descriptions), integers, lists of values (lists of file names or of
    descriptions), references to objects, and dictionaries with string
    keys.  Class objects are not among them. *)
Inductive value :=
| VNone
| VStr (s : string)
| VInt (z : Z)
| VList (vs : list value)
| VRef (l : loc)
| VDict (entries : gmap string value).

(** The four collection classes imported by the module. *)
Inductive coll := Exposures | ImpactFuncs | Measures | DiscRates.

Global Instance coll_eq_dec : EqDecision coll.
Proof. solve_decision. Defined.

(** Classes of objects in the store: one of the four collection classes, a
    class unrelated to them, or a class derived from a list of bases. *)
Inductive pyclass :=
| ClsColl (k : coll)
| ClsOther (name : string)
| ClsDerived (name : string) (bases : list pyclass).

(** [issubclass c k]: class [c] is collection class [k] or derives from it. *)
Fixpoint issubclass (c : pyclass) (k : coll) : bool :=
  match c with
  | ClsColl k' => bool_decide (k' = k)
  | ClsOther _ => false
  | ClsDerived _ bases => existsb (fun b => issubclass b k) bases
  end.

Inductive exn :=
| ValueError
| AttributeError
| TypeError
| OtherError (name : string).

Inductive outcome (A : Type) :=
| Ok (a : A)
| Raise (e : exn).
Arguments Ok {A} a.
Arguments Raise {A} e.

(** ** The collaborators

    The collection classes live in other modules of the package and
    [ENT_DEF_XLS] in [climada.util.config]; the Entity module only calls
    them.  They are taken as an interface:
    - [coll_init k args] is the constructor call [K(args)]: the state of the
      new object, or the exception it raises;
    - [coll_read c d file_name description] is [obj.read(file_name,
      description)] on an object of class [c] in state [d]: the state the
      call leaves the object in, and the exception it raises if any;
    - [coll_check c d] is [obj.check()], likewise;
    - [coll_call c d args] is the call [obj(args)] of an object that is not
      an Entity, likewise ([TypeError] when its class is not callable).
    Methods are dispatched on the class of the receiver and act on the
    receiver only. *)
Class Collaborators := {
  Data : Type;
  coll_init : coll -> list value -> Data + exn;
  coll_read : pyclass -> Data -> value -> value -> Data * option exn;
  coll_check : pyclass -> Data -> Data * option exn;
  coll_call : pyclass -> Data -> list value -> Data * option exn;
  ENT_DEF_XLS : string;
}.

(** ** Store, trace and the monad of effects *)

Section Monad.
Context `{Collaborators}.

(** An object is an Entity, given by its instance dictionary, or an instance
    of another class with its state. *)
Inductive object :=
| ObjEntity (dict : gmap string value)
| ObjData (c : pyclass) (d : Data).

(** Calls that leave the module, in the order they are made. *)
Inductive event :=
| EvNew (k : coll) (args : list value)
| EvRead (l : loc) (file_name description : value)
| EvCheck (l : loc)
| EvCall (l : loc) (args : list value)
| EvLogError (msg : string).

Record world := World {
  heap : gmap loc object;
  trace : list event;
}.

(** A computation runs in a world and ends in a world, with a result or a
    raised exception.  A raise keeps the world reached so far. *)
Definition M (A : Type) : Type := world -> outcome A * world.

Definition ret {A} (a : A) : M A := fun w => (Ok a, w).

Definition bind {A B} (m : M A) (k : A -> M B) : M B :=
  fun w => match m w with
           | (Ok a, w') => k a w'
           | (Raise e, w') => (Raise e, w')
           end.

Definition raise {A} (e : exn) : M A := fun w => (Raise e, w).

Definition emit (ev : event) : M unit :=
  fun w => (Ok tt, World (heap w) (trace w ++ [ev])).

End Monad.

Declare Scope py_scope.
Delimit Scope py_scope with py.
Notation "x ← y ; z" := (bind y (fun x => z))
  (at level 20, y at level 100, z at level 200, only parsing) : py_scope.
Notation "x ;; z" := (bind x (fun _ => z))
  (at level 100, z at level 200, only parsing, right associativity) : py_scope.
Open Scope py_scope.

(** ** Primitive operations of the object model *)

Section Model.
Context `{Collaborators}.

(** [isinstance(v, K)] for a collection class [K], in store [h]. *)
Definition isinstance (h : gmap loc object) (v : value) (k : coll) : bool :=
  match v with
  | VRef l => match h !! l with
              | Some (ObjData c _) => issubclass c k
              | _ => false
              end
  | _ => false
  end.

(** The constructor call [K(args)]: the new object is stored at a location
    not in use and a reference to it is returned. *)
Definition new (k : coll) (args : list value) : M value :=
  emit (EvNew k args);;
  match coll_init k args with
  | inl d => fun w =>
      let l := fresh (dom (heap w)) in
      (Ok (VRef l), World (<[l := ObjData (ClsColl k) d]> (heap w)) (trace w))
  | inr e => raise e
  end.

(** [self.name] on an Entity: the instance dictionary first, then the class
    attribute [def_file]. *)
Definition getattr (self : loc) (name : string) : M value :=
  fun w => match heap w !! self with
           | Some (ObjEntity dict) =>
               match dict !! name with
               | Some v => (Ok v, w)
               | None => if String.eqb name "def_file"
                         then (Ok (VStr ENT_DEF_XLS), w)
                         else (Raise AttributeError, w)
               end
           | _ => (Raise AttributeError, w)
           end.

(** The names that [object] itself manages on an instance: assignment to
    them does not go to the instance dictionary. *)
Definition special (name : string) : bool :=
  String.eqb name "__class__" || String.eqb name "__dict__"
  || String.eqb name "__weakref__".

(** [object.__setattr__(self, name, value)] on an instance with a
    dictionary.  [__class__] accepts class objects only, and no modelled
    value is one; [__weakref__] is not writable; [__dict__] accepts
    dictionaries only and the dictionary assigned becomes the instance
    dictionary; under any other name the binding is stored in the instance
    dictionary. *)
Definition object_setattr (self : loc) (name : string) (v : value) : M unit :=
  fun w => match heap w !! self with
           | Some (ObjEntity dict) =>
               if String.eqb name "__class__" then (Raise TypeError, w)
               else if String.eqb name "__weakref__" then (Raise AttributeError, w)
               else if String.eqb name "__dict__" then
                 match v with
                 | VDict entries =>
                     (Ok tt, World (<[self := ObjEntity entries]> (heap w))
                                   (trace w))
                 | _ => (Raise TypeError, w)
                 end
               else
                 (Ok tt, World (<[self := ObjEntity (<[name := v]> dict)]> (heap w))
                               (trace w))
           | _ => (Raise AttributeError, w)
           end.

(** The call [v(args)]: values other than references are not callable, and
    neither is an Entity; the call of another object is its class's. *)
Definition call_value (v : value) (args : list value) : M unit :=
  fun w => match v with
           | VRef l =>
               match heap w !! l with
               | Some (ObjData c d) =>
                   let '(d', e) := coll_call c d args in
                   let w' := World (<[l := ObjData c d']> (heap w))
                                   (trace w ++ [EvCall l args]) in
                   (match e with Some e => Raise e | None => Ok tt end, w')
               | _ => (Raise TypeError, w)
               end
           | _ => (Raise TypeError, w)
           end.

(** [r.read(file_name, description)] and [r.check()] on the object that
    [r] refers to. *)
Definition call_read (r file_name description : value) : M unit :=
  fun w => match r with
           | VRef l =>
               match heap w !! l with
               | Some (ObjData c d) =>
                   let '(d', e) := coll_read c d file_name description in
                   let w' := World (<[l := ObjData c d']> (heap w))
                                   (trace w ++ [EvRead l file_name description]) in
                   (match e with Some e => Raise e | None => Ok tt end, w')
               | _ => (Raise AttributeError, w)
               end
           | _ => (Raise AttributeError, w)
           end.

Definition call_check (r : value) : M unit :=
  fun w => match r with
           | VRef l =>
               match heap w !! l with
               | Some (ObjData c d) =>
                   let '(d', e) := coll_check c d in
                   let w' := World (<[l := ObjData c d']> (heap w))
                                   (trace w ++ [EvCheck l]) in
                   (match e with Some e => Raise e | None => Ok tt end, w')
               | _ => (Raise AttributeError, w)
               end
           | _ => (Raise AttributeError, w)
           end.

(** ** The Entity class *)

(** One branch of the guard in [__setattr__]. *)
Definition require_instance (v : value) (k : coll) (msg : string) : M unit :=
  fun w => if isinstance (heap w) v k then (Ok tt, w)
           else (emit (EvLogError msg);; raise ValueError) w.

Definition Entity_setattr (self : loc) (name : string) (v : value) : M unit :=
  (if String.eqb name "exposures" then
     require_instance v Exposures "Input value is not (sub)class of Exposures."
   else if String.eqb name "impact_funcs" then
     require_instance v ImpactFuncs "Input value is not (sub)class of ImpactFuncs."
   else if String.eqb name "measures" then
     require_instance v Measures "Input value is not (sub)class of Measures."
   else if String.eqb name "disc_rates" then
     require_instance v DiscRates "Input value is not (sub)class of DiscRates."
   else ret tt);;
  object_setattr self name v.

Definition Entity_read (self : loc) (file_name description : value) : M unit :=
  x ← new Exposures [];
  Entity_setattr self "exposures" x;;
  r ← getattr self "exposures";
  call_read r file_name description;;

  x ← new DiscRates [];
  Entity_setattr self "disc_rates" x;;
  r ← getattr self "disc_rates";
  call_read r file_name description;;

  x ← new ImpactFuncs [];
  Entity_setattr self "impact_funcs" x;;
  r ← getattr self "impact_funcs";
  call_read r file_name description;;

  x ← new Measures [];
  Entity_setattr self "measures" x;;
  r ← getattr self "measures";
  call_read r file_name description.

(** [self.read(file_name, description)] in [__init__]: [read] is looked up
    through the instance, so an entry [read] of the instance dictionary
    hides the method of the class and is called in its place. *)
Definition call_self_read (self : loc) (file_name description : value)
  : M unit :=
  fun w => match heap w !! self with
           | Some (ObjEntity dict) =>
               match dict !! "read" with
               | Some v => call_value v [file_name; description] w
               | None => Entity_read self file_name description w
               end
           | _ => (Raise AttributeError, w)
           end.

Definition Entity_init (self : loc) (file_name description : value) : M unit :=
  match file_name with
  | VNone =>
      f ← getattr self "def_file";
      x ← new Exposures [f];
      Entity_setattr self "exposures" x;;
      f ← getattr self "def_file";
      x ← new ImpactFuncs [f];
      Entity_setattr self "impact_funcs" x;;
      f ← getattr self "def_file";
      x ← new Measures [f];
      Entity_setattr self "measures" x;;
      f ← getattr self "def_file";
      x ← new DiscRates [f];
      Entity_setattr self "disc_rates" x
  | _ => call_self_read self file_name description
  end.

Definition Entity_check (self : loc) : M unit :=
  r ← getattr self "disc_rates";
  call_check r;;
  r ← getattr self "exposures";
  call_check r;;
  r ← getattr self "impact_funcs";
  call_check r;;
  r ← getattr self "measures";
  call_check r.

(** The call [Entity(file_name, description)]: a new instance with an empty
    dictionary is allocated, [__init__] runs on it, and the instance is the
    result when [__init__] returns. *)
Definition Entity_new (file_name description : value) : M loc :=
  self ← (fun w => let l := fresh (dom (heap w)) in
                   (Ok l, World (<[l := ObjEntity ∅]> (heap w)) (trace w)));
  Entity_init self file_name description;;
  ret self.

End Model.

(** ** Observations used in the statements *)

Section Observations.
Context `{Collaborators}.

(** The attribute name guarded for each collection class, and the message
    logged when its guard rejects a value. *)
Definition attr (k : coll) : string :=
  match k with
  | Exposures => "exposures"
  | ImpactFuncs => "impact_funcs"
  | Measures => "measures"
  | DiscRates => "disc_rates"
  end.

Definition guard_msg (k : coll) : string :=
  match k with
  | Exposures => "Input value is not (sub)class of Exposures."
  | ImpactFuncs => "Input value is not (sub)class of ImpactFuncs."
  | Measures => "Input value is not (sub)class of Measures."
  | DiscRates => "Input value is not (sub)class of DiscRates."
  end.

Definition guarded (name : string) : Prop := ∃ k, name = attr k.

(** The entry [name] of the instance dictionary of the Entity at [self]. *)
Definition attr_val (h : gmap loc object) (self : loc) (name : string)
  : option value :=
  match h !! self with
  | Some (ObjEntity dict) => dict !! name
  | _ => None
  end.

Definition is_entity (h : gmap loc object) (self : loc) : Prop :=
  ∃ dict, h !! self = Some (ObjEntity dict).

(** Attribute [attr k] of the Entity at [self] holds an instance of [k]. *)
Definition holds (h : gmap loc object) (self : loc) (k : coll) : Prop :=
  ∃ v, attr_val h self (attr k) = Some v ∧ isinstance h v k = true.

(** The invariant of the class: all four attributes are well typed. *)
Definition typed (h : gmap loc object) (self : loc) : Prop :=
  ∀ k, holds h self k.

(** Attribute [attr k] refers to the object at [l], of class [c], in state
    [d]. *)
Definition refers (h : gmap loc object) (self : loc) (k : coll)
    (l : loc) (c : pyclass) (d : Data) : Prop :=
  attr_val h self (attr k) = Some (VRef l) ∧ h !! l = Some (ObjData c d).

(** The effect on the store of binding attribute [attr k] of the Entity at
    [self] to a new object at [l] whose state ends as [d]: [l] was not in
    use, the dictionary of [self] gains the binding, and nothing else
    changes. *)
Definition assigned (self : loc) (k : coll) (l : loc) (d : Data)
    (h h' : gmap loc object) : Prop :=
  h !! l = None
  ∧ (∃ dict, h !! self = Some (ObjEntity dict)
             ∧ h' !! self = Some (ObjEntity (<[attr k := VRef l]> dict)))
  ∧ h' !! l = Some (ObjData (ClsColl k) d)
  ∧ (∀ l', l' ≠ l → l' ≠ self → h' !! l' = h !! l').

(** The two statements that [read] repeats for each collection, the
    statement that [__init__] repeats in its default branch and the one
    that [check] repeats. *)
Definition fill (self : loc) (k : coll) (file_name description : value)
  : M unit :=
  x ← new k [];
  Entity_setattr self (attr k) x;;
  r ← getattr self (attr k);
  call_read r file_name description.

Definition fill_default (self : loc) (k : coll) : M unit :=
  f ← getattr self "def_file";
  x ← new k [f];
  Entity_setattr self (attr k) x.

Definition check_attr (self : loc) (k : coll) : M unit :=
  r ← getattr self (attr k);
  call_check r.

(** The orders in which [__init__], [read] and [check] go through the
    collections, and the blocks run in sequence along a list. *)
Definition default_order : list coll := [Exposures; ImpactFuncs; Measures; DiscRates].
Definition read_order : list coll := [Exposures; DiscRates; ImpactFuncs; Measures].
Definition check_order : list coll := [DiscRates; Exposures; ImpactFuncs; Measures].

Definition fill_all (self : loc) (file_name description : value)
    (ks : list coll) : M unit :=
  foldr (fun k rest => fill self k file_name description;; rest) (ret tt) ks.

Definition check_all (self : loc) (ks : list coll) : M unit :=
  foldr (fun k rest => check_attr self k;; rest) (ret tt) ks.

(** What a run of [fill] blocks along [ks] has done between worlds [w] and
    [w']: each attribute of [ks] refers to a new object at [L k] in state
    [D1 k], the other attributes and the objects that existed are as they
    were, and the trace grew by one constructor call and one [read] per
    collection, in order. *)
Definition read_into (self : loc) (file_name description : value)
    (D1 : coll -> Data) (L : coll -> loc) (ks : list coll) (w w' : world)
  : Prop :=
  is_entity (heap w') self
  ∧ (∀ k, k ∈ ks →
       heap w !! L k = None ∧ refers (heap w') self k (L k) (ClsColl k) (D1 k))
  ∧ (∀ name, (∀ k, k ∈ ks → name ≠ attr k) →
       attr_val (heap w') self name = attr_val (heap w) self name)
  ∧ (∀ l o, heap w !! l = Some o → l ≠ self → heap w' !! l = Some o)
  ∧ trace w' =
      trace w ++
      flat_map (fun k => [EvNew k []; EvRead (L k) file_name description]) ks.

(** The object a value refers to. *)
Definition contents (h : gmap loc object) (v : value) : option object :=
  match v with
  | VRef l => h !! l
  | _ => None
  end.

(** A collection read on its own: a new instance of [k] on which [read] is
    invoked with the file name and the description. *)
Definition standalone_read (k : coll) (file_name description : value)
  : M value :=
  x ← new k [];
  call_read x file_name description;;
  ret x.

(** A relation between the world before and the world after that every step
    of a computation respects, whatever its outcome. *)
Definition stable (R : relation world) {A} (m : M A) : Prop :=
  ∀ w, R w (m w).2.

(** Entities keep their dictionaries and the other objects keep their
    classes. *)
Definition grows (h h' : gmap loc object) : Prop :=
  (∀ e dict, h !! e = Some (ObjEntity dict) → h' !! e = Some (ObjEntity dict))
  ∧ (∀ l c d, h !! l = Some (ObjData c d) → ∃ d', h' !! l = Some (ObjData c d')).

Definition keeps_typed (w w' : world) : Prop :=
  ∀ e k, holds (heap w) e k → holds (heap w') e k.


Definition keeps_attrs (w w' : world) : Prop :=
  ∀ e name, attr_val (heap w') e name = attr_val (heap w) e name.

(** The events that [read] may produce: a constructor call without
    arguments, a [read] call with exactly the given file name and
    description, or a line of the log. *)
Definition forwarded (file_name description : value) (ev : event) : Prop :=
  match ev with
  | EvRead _ f d => f = file_name ∧ d = description
  | EvNew _ args => args = []
  | EvCheck _ => False
  | EvCall _ _ => False
  | EvLogError _ => True
  end.

Definition forwards (file_name description : value) (w w' : world) : Prop :=
  ∃ evs, trace w' = trace w ++ evs ∧ Forall (forwarded file_name description) evs.

(** The default branch of [__init__] run along a list of collections. *)
Definition fill_default_all (self : loc) (ks : list coll) : M unit :=
  foldr (fun k rest => fill_default self k;; rest) (ret tt) ks.

(** The value of [self.def_file]: the entry of the instance dictionary when
    there is one, the class attribute otherwise. *)
Definition def_file_of (h : gmap loc object) (self : loc) : value :=
  default (VStr ENT_DEF_XLS) (attr_val h self "def_file").

(** The objects that existed in [h], except the one at [self], are in [h']
    as they were. *)
Definition untouched (self : loc) (h h' : gmap loc object) : Prop :=
  ∀ l o, h !! l = Some o → l ≠ self → h' !! l = Some o.

(** The world changes by calls of [check] only. *)
Definition is_check (ev : event) : Prop :=
  match ev with
  | EvCheck _ => True
  | _ => False
  end.

Definition checks_only (w w' : world) : Prop :=
  keeps_attrs w w' ∧ ∃ evs, trace w' = trace w ++ evs ∧ Forall is_check evs.

(** The part of an order up to and including [k]. *)
Fixpoint upto (k : coll) (order : list coll) : list coll :=
  match order with
  | [] => []
  | k' :: rest => if decide (k' = k) then [k'] else k' :: upto k rest
  end.

(** The collections that come strictly before [k] in an order. *)
Fixpoint before (k : coll) (order : list coll) : list coll :=
  match order with
  | [] => []
  | k' :: rest => if decide (k' = k) then [] else k' :: before k rest
  end.

(** The collections that come strictly after [k] in an order. *)
Fixpoint after (k : coll) (order : list coll) : list coll :=
  match order with
  | [] => []
  | k' :: rest => if decide (k' = k) then rest else after k rest
  end.

End Observations.

(** ** A small instance of the collaborators

    Collections hold the list of sheets they were filled from.  Reading file
    [no_exposures.xls] fails for an [Exposures] (and likewise for the other
    three classes), reading anything but a string fails, and a collection
    holding the sheet [corrupt] does not pass its check. *)
Module Demo.

Definition lacks_sheet (c : pyclass) (s : string) : bool :=
  (issubclass c Exposures && String.eqb s "no_exposures.xls")
  || (issubclass c ImpactFuncs && String.eqb s "no_impact_funcs.xls")
  || (issubclass c Measures && String.eqb s "no_measures.xls")
  || (issubclass c DiscRates && String.eqb s "no_disc_rates.xls").

Definition init (k : coll) (args : list value) : list string + exn :=
  match args with
  | [] => inl []
  | [VStr f] => inl [f]
  | _ => inr TypeError
  end.

Definition read (c : pyclass) (d : list string) (file_name description : value)
  : list string * option exn :=
  match file_name with
  | VStr s => if lacks_sheet c s then (d, Some (OtherError "KeyError"))
              else (d ++ [s], None)
  | _ => (d, Some TypeError)
  end.

Definition check (c : pyclass) (d : list string) : list string * option exn :=
  if existsb (String.eqb "corrupt") d then (d, Some ValueError) else (d, None).

Definition collaborators : Collaborators :=
  {| Data := list string;
     coll_init := init;
     coll_read := read;
     coll_check := check;
     coll_call := fun _ d _ => (d, Some TypeError);
     ENT_DEF_XLS := "entity_default.xls" |}.

Definition empty_world : @world collaborators := World ∅ [].

(** The world after [Entity()] in the empty world: the Entity is at
    location 1 and its collections at the locations given by [place]. *)
Definition default_world : @world collaborators :=
  (@Entity_new collaborators VNone VNone empty_world).2.

Definition place (k : coll) : loc :=
  match k with
  | Exposures => 2
  | ImpactFuncs => 3
  | Measures => 4
  | DiscRates => 5
  end%positive.

(** The same world, with the impact functions holding a corrupt sheet. *)
Definition corrupt_sheets (k : coll) : list string :=
  match k with
  | ImpactFuncs => ["corrupt"]
  | _ => ["entity_default.xls"]
  end.

Definition corrupt_world : @world collaborators :=
  World (<[3%positive := @ObjData collaborators (ClsColl ImpactFuncs) ["corrupt"]]>
           (heap default_world))
        [].

(** The default world with one more object, an instance of a class derived
    from [Exposures], and the default world after [def_file] was assigned on
    the instance. *)
Definition derived_world : @world collaborators :=
  World (<[9%positive :=
             @ObjData collaborators
               (ClsDerived "MyExposures" [ClsOther "Mixin"; ClsColl Exposures])
               ["mine"]]>
           (heap default_world))
        [].

Definition shadowed_world : @world collaborators :=
  (@Entity_setattr collaborators 1 "def_file" (VStr "mine.xls") default_world).2.

End Demo.

(** ** An instance whose discount rates cannot be constructed

    As [Demo], except that the constructor of [DiscRates] raises. *)
Module Broken.

Definition init (k : coll) (args : list value) : list string + exn :=
  match k with
  | DiscRates => inr (OtherError "ImportError")
  | _ => Demo.init k args
  end.

Definition collaborators : Collaborators :=
  {| Data := list string;
     coll_init := init;
     coll_read := Demo.read;
     coll_check := Demo.check;
     coll_call := fun _ d _ => (d, Some TypeError);
     ENT_DEF_XLS := "entity_default.xls" |}.

(** An Entity at location 1 whose measures are at location 2. *)
Definition world_with_measures : @world collaborators :=
  World (<[1%positive := @ObjEntity collaborators {["measures" := VRef 2]}]>
           (<[2%positive := @ObjData collaborators (ClsColl Measures) ["old"]]> ∅))
        [].

End Broken.

(** ** An instance whose failing read leaves data behind

    As [Demo], except that a [read] that raises has already put a sheet in
    the collection. *)
Module Partial.

Definition read (c : pyclass) (d : list string) (file_name description : value)
  : list string * option exn :=
  match file_name with
  | VStr s => if Demo.lacks_sheet c s
              then (d ++ ["partial"], Some (OtherError "KeyError"))
              else (d ++ [s], None)
  | _ => (d, Some TypeError)
  end.

Definition collaborators : Collaborators :=
  {| Data := list string;
     coll_init := Demo.init;
     coll_read := read;
     coll_check := Demo.check;
     coll_call := fun _ d _ => (d, Some TypeError);
     ENT_DEF_XLS := "entity_default.xls" |}.

(** The world after [Entity()] in the empty world. *)
Definition default_world : @world collaborators :=
  (@Entity_new collaborators VNone VNone (World ∅ [])).2.

End Partial.


(** * Verification *)

Section Proofs.
Context `{Collaborators}.

Implicit Types (w : world) (h : gmap loc object) (self l : loc) (k : coll)
  (v r : value) (name : string).

(** Case analysis on the outcome of each step of a sequence. *)
Ltac by_cases_on_steps :=
  repeat match goal with
         | |- context [match ?m ?w0 with _ => _ end] =>
             destruct (m w0) as [[?|?] ?]; try done
         end;
  repeat match goal with u : unit |- _ => destruct u end;
  try done.

(** ** The monad *)

Lemma bind_ok {A B} (m : M A) (f : A -> M B) w a w1 :
  m w = (Ok a, w1) → bind m f w = f a w1.
Proof. intros Hm. unfold bind. by rewrite Hm. Qed.

Lemma bind_raise {A B} (m : M A) (f : A -> M B) w e w1 :
  m w = (Raise e, w1) → bind m f w = (Raise e, w1).
Proof. intros Hm. unfold bind. by rewrite Hm. Qed.


Lemma bind_assoc {A B C} (m : M A) (f : A -> M B) (g : B -> M C) w :
  bind (bind m f) g w = bind m (fun a => bind (f a) g) w.
Proof. unfold bind. by destruct (m w) as [[a|e] w1]. Qed.

Lemma flat_map_agree {A B} (g1 g2 : A -> list B) (xs : list A) :
  (∀ x, x ∈ xs → g1 x = g2 x) → flat_map g1 xs = flat_map g2 xs.
Proof.
  induction xs as [|x xs IH]; intros Hg; [done|]. simpl.
  rewrite (Hg x) by (by left). f_equal. apply IH. intros y Hy. apply Hg. by right.
Qed.

(** ** The primitive operations *)

Lemma new_ok k args d w :
  coll_init k args = inl d →
  new k args w =
    (Ok (VRef (fresh (dom (heap w)))),
     World (<[fresh (dom (heap w)) := ObjData (ClsColl k) d]> (heap w))
           (trace w ++ [EvNew k args])).
Proof. intros Hd. unfold new, bind, emit. by rewrite Hd. Qed.

Lemma new_fail k args e w :
  coll_init k args = inr e →
  new k args w = (Raise e, World (heap w) (trace w ++ [EvNew k args])).
Proof. intros Hd. unfold new, bind, emit. by rewrite Hd. Qed.

Lemma attr_inj k k' : attr k = attr k' → k = k'.
Proof. by destruct k, k'. Qed.

Lemma setattr_guarded self k v w :
  Entity_setattr self (attr k) v w =
    if isinstance (heap w) v k then object_setattr self (attr k) v w
    else (Raise ValueError,
          World (heap w) (trace w ++ [EvLogError (guard_msg k)])).
Proof.
  destruct k; unfold Entity_setattr, bind, require_instance, emit, raise;
    simpl; by destruct (isinstance _ _ _).
Qed.

Lemma setattr_unguarded self name v w :
  ¬ guarded name →
  Entity_setattr self name v w = object_setattr self name v w.
Proof.
  intros Hn. unfold Entity_setattr, bind, ret.
  assert (∀ k, String.eqb name (attr k) = false) as Hk.
  { intros k. apply String.eqb_neq. intros ->. apply Hn. by exists k. }
  pose proof (Hk Exposures) as H1. pose proof (Hk ImpactFuncs) as H2.
  pose proof (Hk Measures) as H3. pose proof (Hk DiscRates) as H4.
  simpl in H1, H2, H3, H4. by rewrite H1, H2, H3, H4.
Qed.

Lemma special_attr k : special (attr k) = false.
Proof. by destruct k. Qed.

(** Under a name that [object] does not manage, the base assignment on an
    Entity stores the binding. *)
Lemma object_setattr_ordinary self name v w dict :
  special name = false →
  heap w !! self = Some (ObjEntity dict) →
  object_setattr self name v w =
    (Ok tt, World (<[self := ObjEntity (<[name := v]> dict)]> (heap w)) (trace w)).
Proof.
  intros Hsp Hs. unfold object_setattr. rewrite Hs. unfold special in Hsp.
  apply orb_false_elim in Hsp as [Hsp Hw].
  apply orb_false_elim in Hsp as [Hc Hd]. by rewrite Hc, Hw, Hd.
Qed.

Lemma fresh_lookup h : h !! fresh (dom h) = None.
Proof. apply not_elem_of_dom, is_fresh. Qed.

Lemma fresh_ne h l o : h !! l = Some o → fresh (dom h) ≠ l.
Proof. intros Hl Heq. rewrite <- Heq, fresh_lookup in Hl. discriminate. Qed.

Lemma issubclass_refl k : issubclass (ClsColl k) k = true.
Proof. simpl. by apply bool_decide_eq_true_2. Qed.

(** ** The repeated statements *)

(** [read] is its block of two statements, once per collection. *)
Lemma Entity_read_fill self f d w :
  Entity_read self f d w = fill_all self f d read_order w.
Proof.
  unfold Entity_read, fill_all, fill. simpl.
  unfold bind, ret. by_cases_on_steps.
Qed.

Lemma Entity_init_default self d w :
  Entity_init self VNone d w =
    (fill_default self Exposures;; fill_default self ImpactFuncs;;
     fill_default self Measures;; fill_default self DiscRates) w.
Proof.
  unfold Entity_init, fill_default. simpl attr. unfold bind. by_cases_on_steps.
Qed.

(** With a file name, [__init__] on an Entity whose dictionary has no entry
    [read] runs the method [read] of the class. *)
Lemma Entity_init_file self f d w :
  f ≠ VNone →
  is_entity (heap w) self →
  attr_val (heap w) self "read" = None →
  Entity_init self f d w = Entity_read self f d w.
Proof.
  intros Hf [dict Hs] Hread. unfold attr_val in Hread. rewrite Hs in Hread.
  destruct f; try done; unfold Entity_init, call_self_read;
    by rewrite Hs, Hread.
Qed.

Lemma Entity_check_attrs self w :
  Entity_check self w = check_all self check_order w.
Proof.
  unfold Entity_check, check_all, check_attr. simpl.
  unfold bind, ret. by_cases_on_steps.
Qed.

(** What one block of [read] does on an Entity when the constructor of the
    collection returns. *)
Lemma fill_entity self k f d w dict d0 :
  heap w !! self = Some (ObjEntity dict) →
  coll_init k [] = inl d0 →
  let l := fresh (dom (heap w)) in
  let r := coll_read (ClsColl k) d0 f d in
  fill self k f d w =
    (match r.2 with Some e => Raise e | None => Ok tt end,
     World (<[l := ObjData (ClsColl k) r.1]>
              (<[self := ObjEntity (<[attr k := VRef l]> dict)]>
                 (<[l := ObjData (ClsColl k) d0]> (heap w))))
           ((trace w ++ [EvNew k []]) ++ [EvRead l f d])).
Proof.
  intros Hself Hd0 l r. unfold fill.
  rewrite (bind_ok _ _ _ _ _ (new_ok _ _ _ _ Hd0)). fold l.
  assert (l ≠ self) as Hne by (by eapply fresh_ne).
  unfold bind at 1. rewrite setattr_guarded. cbn [heap trace isinstance].
  rewrite lookup_insert_eq, issubclass_refl.
  erewrite object_setattr_ordinary;
    [|apply special_attr|by cbn [heap]; rewrite lookup_insert_ne, Hself].
  unfold bind, getattr. cbn [heap trace].
  rewrite lookup_insert_eq, lookup_insert_eq.
  unfold call_read. cbn [heap trace].
  rewrite lookup_insert_ne, lookup_insert_eq by done.
  fold r. by destruct r as [d1 [e|]].
Qed.

(** ** Consequences of an assignment of a new collection *)

Lemma assigned_refers self k l d h h' :
  assigned self k l d h h' → refers h' self k l (ClsColl k) d.
Proof.
  intros (_ & (dict & _ & Hs) & Hl & _). split; [|done].
  unfold attr_val. rewrite Hs. apply lookup_insert_eq.
Qed.

Lemma assigned_attr_val self k l d h h' name :
  assigned self k l d h h' → name ≠ attr k →
  attr_val h' self name = attr_val h self name.
Proof.
  intros (_ & (dict & Hs & Hs') & _) Hne. unfold attr_val.
  rewrite Hs, Hs'. by apply lookup_insert_ne.
Qed.

Lemma assigned_old self k l d h h' l' o :
  assigned self k l d h h' → h !! l' = Some o → l' ≠ self → h' !! l' = Some o.
Proof.
  intros (Hl & _ & _ & Hfr) Ho Hne. rewrite Hfr; [done| |done].
  intros ->. congruence.
Qed.

Lemma assigned_refers_other self k l d h h' k' l' c d' :
  assigned self k l d h h' → k' ≠ k →
  refers h self k' l' c d' → refers h' self k' l' c d'.
Proof.
  intros Ha Hne [Hv Ho]. split.
  - erewrite assigned_attr_val; [done|done|]. intros Heq. by apply attr_inj in Heq.
  - eapply assigned_old; [done|done|]. intros ->.
    destruct Ha as (_ & (dict & Hs & _) & _). congruence.
Qed.

Lemma assigned_entity self k l d h h' :
  assigned self k l d h h' → is_entity h' self.
Proof. intros (_ & (dict & _ & Hs) & _). by eexists. Qed.

Lemma assigned_dom self k l d h h' l' :
  assigned self k l d h h' → l' ∈ dom h → l' ∈ dom h'.
Proof.
  intros Ha [o Ho]%elem_of_dom. apply elem_of_dom.
  destruct (decide (l' = self)) as [->|Hne].
  - destruct Ha as (_ & (dict & _ & Hs) & _). by eexists.
  - erewrite assigned_old; done.
Qed.

(** One block of [read] on an Entity, when the constructor returns: the
    attribute is bound to the new object, in the state its [read] leaves
    it; the block raises what that [read] raises. *)
Lemma fill_spec self k f d w d0 :
  is_entity (heap w) self →
  coll_init k [] = inl d0 →
  ∃ l w',
    fill self k f d w =
      (match (coll_read (ClsColl k) d0 f d).2 with
       | Some e => Raise e
       | None => Ok tt
       end, w')
    ∧ assigned self k l (coll_read (ClsColl k) d0 f d).1 (heap w) (heap w')
    ∧ trace w' = trace w ++ [EvNew k []; EvRead l f d].
Proof.
  intros [dict Hself] Hd0. eexists _, _. split; [by eapply fill_entity|].
  cbn [heap trace]. set (l := fresh (dom (heap w))).
  assert (l ≠ self) as Hne by (by eapply fresh_ne).
  split; [|by rewrite <- app_assoc].
  split; [apply fresh_lookup|]. split; [|split].
  - exists dict. split; [done|]. by rewrite lookup_insert_ne, lookup_insert_eq.
  - apply lookup_insert_eq.
  - intros l' H1 H2. by rewrite !lookup_insert_ne.
Qed.

(** ** Runs of [read] blocks *)

Lemma read_into_nil self f d D1 L w :
  is_entity (heap w) self → read_into self f d D1 L [] w w.
Proof.
  intros He. split; [done|]. split; [|split; [done|split; [done|]]].
  - intros k Hk. by apply elem_of_nil in Hk.
  - simpl. by rewrite app_nil_r.
Qed.

Lemma read_into_cons self f d D1 L k l ks w w1 w' :
  assigned self k l (D1 k) (heap w) (heap w1) →
  trace w1 = trace w ++ [EvNew k []; EvRead l f d] →
  k ∉ ks →
  read_into self f d D1 L ks w1 w' →
  read_into self f d D1 (fun k' => if decide (k' = k) then l else L k')
    (k :: ks) w w'.
Proof.
  intros Ha Ht Hk (He & Hks & Hattr & Hold & Htr).
  assert (∀ l' o, heap w !! l' = Some o → l' ≠ self → heap w' !! l' = Some o)
    as Hold'.
  { intros l' o Ho Hne. apply Hold; [|done]. by eapply assigned_old. }
  assert (∀ name, name ≠ attr k → (∀ k', k' ∈ ks → name ≠ attr k') →
            attr_val (heap w') self name = attr_val (heap w) self name)
    as Hattr'.
  { intros name H1 H2. rewrite Hattr by done. by eapply assigned_attr_val. }
  split; [done|]. split; [|split; [|split; [done|]]].
  - intros k' [->|Hin]%elem_of_cons.
    + rewrite decide_True by done. split; [apply Ha|].
      destruct (assigned_refers _ _ _ _ _ _ Ha) as [Hv Ho].
      assert (l ≠ self) as Hls.
      { intros ->. destruct Ha as (Hn & (dict & Hs & _) & _). congruence. }
      split.
      * rewrite Hattr; [done|]. intros k' Hk' Heq. apply attr_inj in Heq. congruence.
      * by apply Hold.
    + rewrite decide_False by congruence.
      destruct (Hks k' Hin) as [Hn Hr]. split; [|done].
      destruct (heap w !! L k') as [o|] eqn:Ho; [|done].
      destruct (decide (L k' = self)) as [Hs|Hs].
      * destruct Ha as (_ & (dict & _ & Hs1) & _). congruence.
      * erewrite assigned_old in Hn; done.
  - intros name Hname. apply Hattr'.
    + apply Hname. by left.
    + intros k' Hk'. apply Hname. by right.
  - rewrite Htr, Ht, <- app_assoc. f_equal. simpl.
    rewrite decide_True by done. do 2 f_equal.
    apply flat_map_agree. intros k' Hin.
    rewrite decide_False; [done|]. by intros ->.
Qed.

(** Every block of [ks] runs to its end when its constructor and its [read]
    return. *)
Lemma fill_all_ok self f d (D0 : coll -> Data) ks : ∀ w,
  NoDup ks →
  is_entity (heap w) self →
  (∀ k, k ∈ ks → coll_init k [] = inl (D0 k)) →
  (∀ k, k ∈ ks → (coll_read (ClsColl k) (D0 k) f d).2 = None) →
  ∃ w' L,
    fill_all self f d ks w = (Ok tt, w')
    ∧ read_into self f d (fun k => (coll_read (ClsColl k) (D0 k) f d).1) L ks w w'.
Proof.
  induction ks as [|k ks IH]; intros w Hnd He Hinit Hread.
  - exists w, (fun _ => 1%positive). split; [done|]. by apply read_into_nil.
  - apply NoDup_cons in Hnd as [Hk Hnd].
    destruct (fill_spec self k f d w (D0 k) He) as (l & w1 & Hrun & Ha & Ht).
    { apply Hinit. by left. }
    rewrite Hread in Hrun by (by left).
    destruct (IH w1) as (w' & L & Hrest & Hinto); try done.
    { by eapply assigned_entity. }
    { intros k' Hk'. apply Hinit. by right. }
    { intros k' Hk'. apply Hread. by right. }
    eexists w', _. split.
    + simpl. by rewrite (bind_ok _ _ _ _ _ Hrun).
    + by eapply (read_into_cons _ _ _ (fun k => (coll_read (ClsColl k) (D0 k) f d).1)).
Qed.

(** A run stops at the first block whose [read] raises, with that block's
    attribute already bound to its new object. *)
Lemma fill_all_fail self f d (D0 : coll -> Data) k0 e post pre : ∀ w,
  NoDup (pre ++ [k0]) →
  is_entity (heap w) self →
  (∀ k, k ∈ pre ++ [k0] → coll_init k [] = inl (D0 k)) →
  (∀ k, k ∈ pre → (coll_read (ClsColl k) (D0 k) f d).2 = None) →
  (coll_read (ClsColl k0) (D0 k0) f d).2 = Some e →
  ∃ w' L,
    fill_all self f d (pre ++ k0 :: post) w = (Raise e, w')
    ∧ read_into self f d (fun k => (coll_read (ClsColl k) (D0 k) f d).1) L
        (pre ++ [k0]) w w'.
Proof.
  induction pre as [|k pre IH]; intros w Hnd He Hinit Hread Hfail.
  - destruct (fill_spec self k0 f d w (D0 k0) He) as (l & w1 & Hrun & Ha & Ht).
    { apply Hinit. by left. }
    rewrite Hfail in Hrun. eexists w1, _. split.
    + simpl. by rewrite (bind_raise _ _ _ _ _ Hrun).
    + eapply (read_into_cons _ _ _ (fun k => (coll_read (ClsColl k) (D0 k) f d).1)
                (fun _ => 1%positive)); [done|done|apply not_elem_of_nil|].
      apply read_into_nil. by eapply assigned_entity.
  - simpl in Hnd. apply NoDup_cons in Hnd as [Hk Hnd].
    destruct (fill_spec self k f d w (D0 k) He) as (l & w1 & Hrun & Ha & Ht).
    { apply Hinit. by left. }
    rewrite Hread in Hrun by (by left).
    destruct (IH w1) as (w' & L & Hrest & Hinto); try done.
    { by eapply assigned_entity. }
    { intros k' Hk'. apply Hinit. by right. }
    { intros k' Hk'. apply Hread. by right. }
    eexists w', _. split.
    + simpl. by rewrite (bind_ok _ _ _ _ _ Hrun).
    + by eapply (read_into_cons _ _ _ (fun k => (coll_read (ClsColl k) (D0 k) f d).1)).
Qed.

(** ** The orders *)

Lemma order_split k order :
  k ∈ order → order = before k order ++ k :: after k order.
Proof.
  induction order as [|k' order IH]; intros Hk; [by apply elem_of_nil in Hk|].
  simpl. destruct (decide (k' = k)) as [->|Hne]; [done|].
  simpl. f_equal. apply IH. apply elem_of_cons in Hk as [Hk|Hk]; [congruence|done].
Qed.

Lemma upto_before k order :
  k ∈ order → upto k order = before k order ++ [k].
Proof.
  induction order as [|k' order IH]; intros Hk; [by apply elem_of_nil in Hk|].
  simpl. destruct (decide (k' = k)) as [->|Hne]; [done|].
  simpl. f_equal. apply IH. apply elem_of_cons in Hk as [Hk|Hk]; [congruence|done].
Qed.

Lemma after_not_upto k k' k0 order :
  NoDup order → k0 ∈ order →
  k ∈ after k0 order → k' ∈ before k0 order ++ [k0] → k ≠ k'.
Proof.
  intros Hnd Hk0 Hk Hk' ->.
  rewrite (order_split k0 order Hk0) in Hnd.
  apply NoDup_app in Hnd as (_ & Hdisj & Hnd).
  apply NoDup_cons in Hnd as [Hk0' _].
  apply elem_of_app in Hk' as [Hpre|Hlast].
  - apply (Hdisj k' Hpre). by right.
  - apply list_elem_of_singleton in Hlast as ->. done.
Qed.

Lemma in_read_order k : k ∈ read_order.
Proof. destruct k; by apply (bool_decide_unpack _). Qed.

Lemma in_check_order k : k ∈ check_order.
Proof. destruct k; by apply (bool_decide_unpack _). Qed.

Lemma NoDup_read_order : NoDup read_order.
Proof. by apply (bool_decide_unpack _). Qed.

Lemma NoDup_check_order : NoDup check_order.
Proof. by apply (bool_decide_unpack _). Qed.

(** [read] stops at the first collection whose own [read] raises. *)
Lemma Entity_read_fail self f d (D0 : coll -> Data) k0 e w :
  is_entity (heap w) self →
  (∀ k, k ∈ upto k0 read_order → coll_init k [] = inl (D0 k)) →
  (∀ k, k ∈ before k0 read_order →
     (coll_read (ClsColl k) (D0 k) f d).2 = None) →
  (coll_read (ClsColl k0) (D0 k0) f d).2 = Some e →
  ∃ w' L,
    Entity_read self f d w = (Raise e, w')
    ∧ read_into self f d (fun k => (coll_read (ClsColl k) (D0 k) f d).1) L
        (upto k0 read_order) w w'.
Proof.
  intros He Hinit Hread Hfail.
  rewrite (upto_before _ _ (in_read_order k0)) in *.
  destruct (fill_all_fail self f d D0 k0 e (after k0 read_order)
              (before k0 read_order) w) as (w' & L & Hrun & Hinto); try done.
  { pose proof NoDup_read_order as Hnd.
    rewrite (order_split k0 _ (in_read_order k0)) in Hnd.
    apply NoDup_app in Hnd as (Hpre & Hdisj & Hpost).
    apply NoDup_app. split; [done|]. split; [|apply NoDup_singleton].
    intros k Hk Hk0. apply (Hdisj k Hk).
    apply list_elem_of_singleton in Hk0 as ->. by left. }
  exists w', L. split; [|done].
  by rewrite Entity_read_fill, (order_split k0 _ (in_read_order k0)).
Qed.

(** [Entity(...)] allocates the instance at an unused location. *)
Lemma Entity_new_alloc f d w :
  let self := fresh (dom (heap w)) in
  let w0 := World (<[self := ObjEntity ∅]> (heap w)) (trace w) in
  Entity_new f d w =
    match Entity_init self f d w0 with
    | (Ok _, w') => (Ok self, w')
    | (Raise e, w') => (Raise e, w')
    end.
Proof. done. Qed.

Lemma standalone_read_spec k f d d0 w0 :
  coll_init k [] = inl d0 →
  (coll_read (ClsColl k) d0 f d).2 = None →
  ∃ l w0',
    standalone_read k f d w0 = (Ok (VRef l), w0')
    ∧ heap w0 !! l = None
    ∧ heap w0' !! l = Some (ObjData (ClsColl k) (coll_read (ClsColl k) d0 f d).1).
Proof.
  intros Hinit Hread. unfold standalone_read.
  rewrite (bind_ok _ _ _ _ _ (new_ok _ _ _ _ Hinit)).
  unfold bind, call_read, ret. cbn [heap trace]. rewrite lookup_insert_eq.
  destruct (coll_read (ClsColl k) d0 f d) as [d1 oe]. simpl in Hread. subst oe.
  eexists _, _. split; [done|]. split; [apply fresh_lookup|].
  cbn [heap]. apply lookup_insert_eq.
Qed.

(** ** Construction from a file *)

(** [Entity(file_name, description)] with a file name is the allocation of
    a new instance followed by [read] on it: the dictionary of the new
    instance is empty, so [self.read] is the method of the class. *)
Lemma Entity_new_file f d w :
  f ≠ VNone →
  let self := fresh (dom (heap w)) in
  let w0 := World (<[self := ObjEntity ∅]> (heap w)) (trace w) in
  Entity_new f d w =
    match Entity_read self f d w0 with
    | (Ok _, w') => (Ok self, w')
    | (Raise e, w') => (Raise e, w')
    end.
Proof.
  intros Hf self w0. rewrite Entity_new_alloc. fold self w0.
  rewrite Entity_init_file; [done|done| |].
  - exists ∅. apply lookup_insert_eq.
  - unfold attr_val. cbn [heap w0]. by rewrite lookup_insert_eq.
Qed.

(** C3.  For a file name (not [None]) and a description on which the
    constructor and the [read] of each of the four collections return,
    [Entity(file_name, description)] returns a new instance whose four
    attributes refer to objects with the class and the state that a new
    instance of the collection has after its own [read] of the same file
    name and description; and the construction is [read] run on the new
    instance. *)
Theorem Entity_from_file w f d (D0 : coll -> Data) :
  f ≠ VNone →
  (∀ k, coll_init k [] = inl (D0 k)) →
  (∀ k, (coll_read (ClsColl k) (D0 k) f d).2 = None) →
  ∃ self w',
    Entity_new f d w = (Ok self, w')
    ∧ heap w !! self = None
    ∧ Entity_read self f d (World (<[self := ObjEntity ∅]> (heap w)) (trace w))
      = (Ok tt, w')
    ∧ ∀ k w0, ∃ v x w0',
        attr_val (heap w') self (attr k) = Some v
        ∧ standalone_read k f d w0 = (Ok x, w0')
        ∧ contents (heap w') v = contents (heap w0') x
        ∧ contents (heap w') v =
            Some (ObjData (ClsColl k) (coll_read (ClsColl k) (D0 k) f d).1).
Proof.
  intros Hf Hinit Hread.
  set (self := fresh (dom (heap w))).
  set (w0 := World (<[self := ObjEntity ∅]> (heap w)) (trace w)).
  destruct (fill_all_ok self f d D0 read_order w0) as (w' & L & Hrun & Hinto).
  { apply NoDup_read_order. }
  { exists ∅. apply lookup_insert_eq. }
  { auto. }
  { auto. }
  rewrite <- Entity_read_fill in Hrun.
  exists self, w'. split; [|split; [|split]].
  - rewrite Entity_new_file by done. fold self w0. by rewrite Hrun.
  - apply fresh_lookup.
  - done.
  - intros k w0'.
    destruct Hinto as (_ & Hks & _).
    destruct (Hks k (in_read_order k)) as [_ [Hv Ho]].
    destruct (standalone_read_spec k f d (D0 k) w0' (Hinit k) (Hread k))
      as (l & w1 & Hrun1 & _ & Hl).
    exists (VRef (L k)), (VRef l), w1. simpl. by rewrite Ho, Hl.
Qed.

(** ** A failing read *)

(** C9 (amended).  When [read] runs on an Entity and the [read] of collection [k0]
    raises (the collections before it having been read), [read] raises the
    same exception and the attribute of [k0] refers to an object that did
    not exist before the call: the instance of exactly class [k0] that the
    call constructed without arguments, in the state its own [read] left it
    in, which is the state after construction when the failing [read] did
    not change its receiver.  It is not the object the attribute referred to
    before the call. *)
Theorem read_failure_fresh_instance w self f d (D0 : coll -> Data) k0 e :
  is_entity (heap w) self →
  (∀ k, k ∈ upto k0 read_order → coll_init k [] = inl (D0 k)) →
  (∀ k, k ∈ before k0 read_order →
     (coll_read (ClsColl k) (D0 k) f d).2 = None) →
  (coll_read (ClsColl k0) (D0 k0) f d).2 = Some e →
  ∃ w' l,
    Entity_read self f d w = (Raise e, w')
    ∧ heap w !! l = None
    ∧ refers (heap w') self k0 l (ClsColl k0)
        (coll_read (ClsColl k0) (D0 k0) f d).1
    ∧ ((coll_read (ClsColl k0) (D0 k0) f d).1 = D0 k0 →
       refers (heap w') self k0 l (ClsColl k0) (D0 k0))
    ∧ (∀ l0 c0 d0, refers (heap w) self k0 l0 c0 d0 → l0 ≠ l).
Proof.
  intros He Hinit Hread Hfail.
  destruct (Entity_read_fail self f d D0 k0 e w He Hinit Hread Hfail)
    as (w' & L & Hrun & _ & Hks & _).
  destruct (Hks k0) as [Hnew Hrefers].
  { rewrite (upto_before _ _ (in_read_order k0)). apply elem_of_app. right. by left. }
  exists w', (L k0). split; [done|]. split; [done|]. split; [done|]. split.
  - by intros <-.
  - intros l0 c0 d0 [_ Ho] ->. congruence.
Qed.

(** C4 (amended).  When [read] runs on an Entity and the [read] of
    collection [k0] raises (the collections before it having been read),
    [read] raises the same exception and rolls nothing back: the attributes
    of the collections before [k0] refer to new objects holding what was
    read from the file, the attribute of [k0] itself refers to the new
    instance on which the failing [read] was invoked, the attributes of the
    collections after [k0] are bound as before the call, and every object
    that existed before the call is as it was. *)
Theorem read_failure_no_rollback w self f d (D0 : coll -> Data) k0 e :
  is_entity (heap w) self →
  (∀ k, k ∈ upto k0 read_order → coll_init k [] = inl (D0 k)) →
  (∀ k, k ∈ before k0 read_order →
     (coll_read (ClsColl k) (D0 k) f d).2 = None) →
  (coll_read (ClsColl k0) (D0 k0) f d).2 = Some e →
  ∃ w' L,
    Entity_read self f d w = (Raise e, w')
    ∧ (∀ k, k ∈ before k0 read_order →
         heap w !! L k = None
         ∧ refers (heap w') self k (L k) (ClsColl k)
             (coll_read (ClsColl k) (D0 k) f d).1)
    ∧ (heap w !! L k0 = None
       ∧ refers (heap w') self k0 (L k0) (ClsColl k0)
           (coll_read (ClsColl k0) (D0 k0) f d).1)
    ∧ (∀ k, k ∈ after k0 read_order →
         attr_val (heap w') self (attr k) = attr_val (heap w) self (attr k))
    ∧ (∀ l o, heap w !! l = Some o → l ≠ self → heap w' !! l = Some o).
Proof.
  intros He Hinit Hread Hfail.
  destruct (Entity_read_fail self f d D0 k0 e w He Hinit Hread Hfail)
    as (w' & L & Hrun & _ & Hks & Hattr & Hold & _).
  rewrite (upto_before _ _ (in_read_order k0)) in Hks, Hattr.
  exists w', L. split; [done|]. split; [|split; [|split; [|done]]].
  - intros k Hk. apply Hks, elem_of_app. by left.
  - apply Hks, elem_of_app. right. by left.
  - intros k Hk. apply Hattr. intros k' Hk' Heq. apply attr_inj in Heq.
    exact (after_not_upto k k' k0 read_order NoDup_read_order
             (in_read_order k0) Hk Hk' Heq).
Qed.

(** ** Properties kept by every step *)

Section Stable.
Context (R : relation world) `{!Reflexive R} `{!Transitive R}.

Lemma stable_ret {A} (a : A) : stable R (ret a).
Proof. intros w. simpl. reflexivity. Qed.

Lemma stable_raise {A} e : stable R (raise (A:=A) e).
Proof. intros w. simpl. reflexivity. Qed.

Lemma stable_bind {A B} (m : M A) (f : A -> M B) :
  stable R m → (∀ a, stable R (f a)) → stable R (bind m f).
Proof.
  intros Hm Hf w. unfold bind. specialize (Hm w).
  destruct (m w) as [[a|e] w1]; simpl in *; [|done].
  etrans; [done|]. apply Hf.
Qed.

End Stable.

(** Runs a stability proof through a sequence of steps. *)
Ltac stable_steps :=
  repeat lazymatch goal with
         | |- stable _ (bind _ _) => refine (stable_bind _ _ _ _ _); [| intros ?]
         | |- stable _ (ret _) => refine (stable_ret _ _)
         | |- stable _ (raise _) => refine (stable_raise _ _)
         end.

Lemma grows_refl h : grows h h.
Proof. split; eauto. Qed.


Lemma grows_update h l c d d' :
  h !! l = Some (ObjData c d) → grows h (<[l := ObjData c d']> h).
Proof.
  intros Hl. split.
  - intros e dict He. rewrite lookup_insert_ne; [done|]. intros ->. congruence.
  - intros l' c' d0 Ho. destruct (decide (l = l')) as [->|Hne].
    + exists d'. rewrite lookup_insert_eq. congruence.
    + exists d0. by rewrite lookup_insert_ne.
Qed.

Lemma grows_isinstance h h' v k :
  grows h h' → isinstance h v k = true → isinstance h' v k = true.
Proof.
  intros [_ Hg]. destruct v as [| | | |l|]; try done. simpl.
  destruct (h !! l) as [[dict|c d]|] eqn:Hl; try done.
  destruct (Hg l c d Hl) as [d' ->]. done.
Qed.

Lemma grows_holds h h' e k : grows h h' → holds h e k → holds h' e k.
Proof.
  intros Hg (v & Hv & Hi). exists v. split.
  - unfold attr_val in *. destruct (h !! e) as [[dict|c d]|] eqn:He; try done.
    by rewrite (proj1 Hg e dict He).
  - by eapply grows_isinstance.
Qed.




Lemma getattr_world self name w : (getattr self name w).2 = w.
Proof.
  unfold getattr. destruct (heap w !! self) as [[dict|c d]|]; try done.
  destruct (dict !! name); [done|]. by destruct (String.eqb name "def_file").
Qed.

(** *** The type invariant *)

Global Instance keeps_typed_refl : Reflexive keeps_typed.
Proof. by intros w e k. Qed.

Global Instance keeps_typed_trans : Transitive keeps_typed.
Proof. intros w1 w2 w3 H12 H23 e k He. by apply H23, H12. Qed.






Lemma guarded_dec name : {k | name = attr k} + {¬ guarded name}.
Proof.
  destruct (decide (name = attr Exposures)); [left; by exists Exposures|].
  destruct (decide (name = attr ImpactFuncs)); [left; by exists ImpactFuncs|].
  destruct (decide (name = attr Measures)); [left; by exists Measures|].
  destruct (decide (name = attr DiscRates)); [left; by exists DiscRates|].
  right. intros [[] ->]; done.
Qed.

















(** ** The type invariant of the four attributes *)


(** ** What [check] leaves alone *)

Global Instance keeps_attrs_refl : Reflexive keeps_attrs.
Proof. by intros w e name. Qed.

Global Instance keeps_attrs_trans : Transitive keeps_attrs.
Proof. intros w1 w2 w3 H12 H23 e name. by rewrite H23, H12. Qed.

Global Instance checks_only_refl : Reflexive checks_only.
Proof.
  intros w. split; [reflexivity|]. exists []. by rewrite app_nil_r.
Qed.

Global Instance checks_only_trans : Transitive checks_only.
Proof.
  intros w1 w2 w3 [Ha (evs & Ht & Hf)] [Ha' (evs' & Ht' & Hf')].
  split; [by etrans|]. exists (evs ++ evs'). split.
  - by rewrite Ht', Ht, app_assoc.
  - by apply Forall_app.
Qed.

Lemma getattr_checks_only self name : stable checks_only (getattr self name).
Proof. intros w. rewrite getattr_world. reflexivity. Qed.

Lemma call_check_checks_only r : stable checks_only (call_check r).
Proof.
  intros w. unfold call_check. destruct r as [| | | |l|]; try reflexivity.
  destruct (heap w !! l) as [[dict|c d]|] eqn:Hl; try reflexivity.
  destruct (coll_check c d) as [d' oe]. cbn [snd]. split.
  - intros e name. unfold attr_val. cbn [heap].
    destruct (decide (l = e)) as [->|Hne].
    + by rewrite lookup_insert_eq, Hl.
    + by rewrite lookup_insert_ne.
  - exists [EvCheck l]. split; [done|]. by apply Forall_singleton.
Qed.

(** C10.  [check] assigns no attribute: after it, whether it returned or
    raised, every entry of the instance dictionary of every Entity is what
    it was before, and the only calls made are calls of [check]. *)
Theorem check_keeps_attributes w self :
  (∀ e name,
     attr_val (heap (Entity_check self w).2) e name = attr_val (heap w) e name)
  ∧ ∃ evs, trace (Entity_check self w).2 = trace w ++ evs ∧ Forall is_check evs.
Proof.
  assert (stable checks_only (Entity_check self)) as Hst.
  { unfold Entity_check. stable_steps;
      auto using getattr_checks_only, call_check_checks_only. }
  apply Hst.
Qed.

(** ** The arguments of [read] *)

Global Instance forwards_refl f d : Reflexive (forwards f d).
Proof. intros w. exists []. by rewrite app_nil_r. Qed.

Global Instance forwards_trans f d : Transitive (forwards f d).
Proof.
  intros w1 w2 w3 (evs & Ht & Hf) (evs' & Ht' & Hf').
  exists (evs ++ evs'). split.
  - by rewrite Ht', Ht, app_assoc.
  - by apply Forall_app.
Qed.

Lemma forwards_one f d w w' ev :
  trace w' = trace w ++ [ev] → forwarded f d ev → forwards f d w w'.
Proof. intros Ht Hf. exists [ev]. split; [done|]. by apply Forall_singleton. Qed.

Lemma new_forwards f d k : stable (forwards f d) (new k []).
Proof.
  intros w. destruct (coll_init k []) as [d0|e] eqn:Hd.
  - rewrite (new_ok _ _ _ _ Hd). by eapply forwards_one.
  - rewrite (new_fail _ _ _ _ Hd). by eapply forwards_one.
Qed.

Lemma getattr_forwards f d self name : stable (forwards f d) (getattr self name).
Proof. intros w. rewrite getattr_world. reflexivity. Qed.

Lemma object_setattr_trace self name v w :
  trace (object_setattr self name v w).2 = trace w.
Proof.
  unfold object_setattr. destruct (heap w !! self) as [[dict|c d]|]; try done.
  repeat (destruct (String.eqb name _); try done). by destruct v.
Qed.

Lemma Entity_setattr_forwards f d self name v :
  stable (forwards f d) (Entity_setattr self name v).
Proof.
  intros w. destruct (guarded_dec name) as [[k ->]|Hn].
  - rewrite setattr_guarded. destruct (isinstance (heap w) v k).
    + exists []. by rewrite object_setattr_trace, app_nil_r.
    + by eapply forwards_one.
  - rewrite setattr_unguarded by done.
    exists []. by rewrite object_setattr_trace, app_nil_r.
Qed.

Lemma call_read_forwards f d r : stable (forwards f d) (call_read r f d).
Proof.
  intros w. unfold call_read. destruct r as [| | | |l|]; try reflexivity.
  destruct (heap w !! l) as [[dict|c d0]|]; try reflexivity.
  destruct (coll_read c d0 f d) as [d1 oe]. by eapply forwards_one.
Qed.

(** C8.  Every call that [read] makes to the [read] of a collection carries
    the file name and the description it was given itself, and the
    constructors it calls get no argument, whatever the outcome.  When the
    four constructors and the four reads return, the calls are exactly one
    construction and one [read(file_name, description)] for each collection,
    on the object its attribute then refers to, in the order exposures,
    discount rates, impact functions, measures. *)
Theorem read_forwards_arguments w self f d :
  forwards f d w (Entity_read self f d w).2
  ∧ ∀ D0 : coll -> Data,
      is_entity (heap w) self →
      (∀ k, coll_init k [] = inl (D0 k)) →
      (∀ k, (coll_read (ClsColl k) (D0 k) f d).2 = None) →
      ∃ w' L,
        Entity_read self f d w = (Ok tt, w')
        ∧ (∀ k, attr_val (heap w') self (attr k) = Some (VRef (L k)))
        ∧ trace w' =
            trace w ++
            flat_map (fun k => [EvNew k []; EvRead (L k) f d]) read_order.
Proof.
  split.
  - assert (stable (forwards f d) (Entity_read self f d)) as Hst; [|apply Hst].
    unfold Entity_read. stable_steps;
      auto using new_forwards, getattr_forwards, Entity_setattr_forwards,
        call_read_forwards.
  - intros D0 He Hinit Hread.
    destruct (fill_all_ok self f d D0 read_order w NoDup_read_order He)
      as (w' & L & Hrun & _ & Hks & _ & _ & Ht); [auto|auto|].
    exists w', L. rewrite Entity_read_fill. split; [done|]. split; [|done].
    intros k. apply (Hks k (in_read_order k)).
Qed.

(** ** Checking *)

Lemma check_attr_spec self k l c d w :
  refers (heap w) self k l c d →
  check_attr self k w =
    (match (coll_check c d).2 with Some e => Raise e | None => Ok tt end,
     World (<[l := ObjData c (coll_check c d).1]> (heap w))
           (trace w ++ [EvCheck l])).
Proof.
  intros [Hv Ho]. unfold check_attr, bind, getattr. unfold attr_val in Hv.
  destruct (heap w !! self) as [[dict|c' d']|]; try done. rewrite Hv.
  unfold call_check. rewrite Ho. by destruct (coll_check c d) as [d1 [e|]].
Qed.

(** A call of [check] on one object leaves the attributes bound as they
    were and the other objects in their state. *)
Lemma refers_after_check h self k l c d l' c' d' d1 :
  refers h self k l c d → h !! l' = Some (ObjData c' d') → l ≠ l' →
  refers (<[l' := ObjData c' d1]> h) self k l c d.
Proof.
  intros [Hv Ho] Ho' Hne. split.
  - unfold attr_val in *. destruct (decide (l' = self)) as [->|Hs].
    + by rewrite Ho' in Hv.
    + by rewrite lookup_insert_ne.
  - by rewrite lookup_insert_ne.
Qed.

Section Checks.
Context (self : loc) (L : coll -> loc) (C : coll -> pyclass) (D : coll -> Data).
Context (Hdistinct : ∀ k k', k ≠ k' → L k ≠ L k').

Lemma check_all_ok ks : ∀ w,
  NoDup ks →
  (∀ k, k ∈ ks → refers (heap w) self k (L k) (C k) (D k)) →
  (∀ k, k ∈ ks → (coll_check (C k) (D k)).2 = None) →
  ∃ w', check_all self ks w = (Ok tt, w')
        ∧ trace w' = trace w ++ map (fun k => EvCheck (L k)) ks.
Proof.
  induction ks as [|k ks IH]; intros w Hnd Href Hvalid.
  - exists w. split; [done|]. simpl. by rewrite app_nil_r.
  - apply NoDup_cons in Hnd as [Hk Hnd].
    pose proof (check_attr_spec self k _ _ _ w (Href k ltac:(by left))) as Hrun.
    rewrite Hvalid in Hrun by (by left).
    destruct (IH (World (<[L k := ObjData (C k) (coll_check (C k) (D k)).1]> (heap w))
                        (trace w ++ [EvCheck (L k)])) Hnd) as (w' & Hrest & Ht).
    { intros k' Hk'. cbn [heap].
      destruct (Href k ltac:(by left)) as [_ Ho].
      eapply refers_after_check; [apply Href; by right|done|].
      apply Hdistinct. by intros ->. }
    { intros k' Hk'. apply Hvalid. by right. }
    exists w'. split.
    + simpl. by rewrite (bind_ok _ _ _ _ _ Hrun).
    + rewrite Ht. cbn [trace map]. by rewrite <- app_assoc.
Qed.

Lemma check_all_fail k0 e post pre : ∀ w,
  NoDup (pre ++ [k0]) →
  (∀ k, k ∈ pre ++ [k0] → refers (heap w) self k (L k) (C k) (D k)) →
  (∀ k, k ∈ pre → (coll_check (C k) (D k)).2 = None) →
  (coll_check (C k0) (D k0)).2 = Some e →
  ∃ w', check_all self (pre ++ k0 :: post) w = (Raise e, w')
        ∧ trace w' = trace w ++ map (fun k => EvCheck (L k)) (pre ++ [k0]).
Proof.
  induction pre as [|k pre IH]; intros w Hnd Href Hvalid Hfail.
  - pose proof (check_attr_spec self k0 _ _ _ w (Href k0 ltac:(by left))) as Hrun.
    rewrite Hfail in Hrun. eexists. split.
    + simpl. by rewrite (bind_raise _ _ _ _ _ Hrun).
    + done.
  - simpl in Hnd. apply NoDup_cons in Hnd as [Hk Hnd].
    pose proof (check_attr_spec self k _ _ _ w (Href k ltac:(by left))) as Hrun.
    rewrite Hvalid in Hrun by (by left).
    destruct (IH (World (<[L k := ObjData (C k) (coll_check (C k) (D k)).1]> (heap w))
                        (trace w ++ [EvCheck (L k)])) Hnd)
      as (w' & Hrest & Ht); [| |done|].
    { intros k' Hk'. cbn [heap].
      destruct (Href k ltac:(by left)) as [_ Ho].
      eapply refers_after_check; [apply Href; by right|done|].
      apply Hdistinct. by intros ->. }
    { intros k' Hk'. apply Hvalid. by right. }
    exists w'. split.
    + simpl. by rewrite (bind_ok _ _ _ _ _ Hrun).
    + rewrite Ht. cbn [trace map app]. by rewrite <- app_assoc.
Qed.

End Checks.

(** C5.  On an Entity whose four attributes refer to four distinct
    objects: when the check of collection [k0] raises and the checks of the
    collections before it in the order discount rates, exposures, impact
    functions, measures return, [check] raises the exception of [k0] and has
    called the checks up to [k0] only, none of a collection after it; when
    the checks of all four return, [check] returns. *)
Theorem check_first_invalid w self (L : coll -> loc) (C : coll -> pyclass)
    (D : coll -> Data) :
  (∀ k, refers (heap w) self k (L k) (C k) (D k)) →
  (∀ k k', k ≠ k' → L k ≠ L k') →
  (∀ k0 e,
     (∀ k, k ∈ before k0 check_order → (coll_check (C k) (D k)).2 = None) →
     (coll_check (C k0) (D k0)).2 = Some e →
     ∃ w',
       Entity_check self w = (Raise e, w')
       ∧ trace w' = trace w ++ map (fun k => EvCheck (L k)) (upto k0 check_order)
       ∧ ∀ k, k ∈ after k0 check_order →
           EvCheck (L k) ∉ map (fun k => EvCheck (L k)) (upto k0 check_order))
  ∧ ((∀ k, (coll_check (C k) (D k)).2 = None) →
     ∃ w',
       Entity_check self w = (Ok tt, w')
       ∧ trace w' = trace w ++ map (fun k => EvCheck (L k)) check_order).
Proof.
  intros Href Hdistinct. split.
  - intros k0 e Hvalid Hfail.
    rewrite (upto_before _ _ (in_check_order k0)).
    destruct (check_all_fail self L C D Hdistinct k0 e (after k0 check_order)
                (before k0 check_order) w) as (w' & Hrun & Ht); try done.
    { pose proof NoDup_check_order as Hnd.
      rewrite (order_split k0 _ (in_check_order k0)) in Hnd.
      apply NoDup_app in Hnd as (Hpre & Hdisj & Hpost).
      apply NoDup_app. split; [done|]. split; [|apply NoDup_singleton].
      intros k Hk Hk0. apply (Hdisj k Hk).
      apply list_elem_of_singleton in Hk0 as ->. by left. }
    exists w'. split; [|split; [done|]].
    + by rewrite Entity_check_attrs, (order_split k0 _ (in_check_order k0)).
    + intros k Hk [k' [Heq Hk']]%list_elem_of_fmap.
      assert (k = k') as Hkk.
      { destruct (decide (k = k')) as [|Hne]; [done|].
        destruct (Hdistinct k k' Hne). congruence. }
      exact (after_not_upto k k' k0 check_order NoDup_check_order
               (in_check_order k0) Hk Hk' Hkk).
  - intros Hvalid.
    destruct (check_all_ok self L C D Hdistinct check_order w NoDup_check_order)
      as (w' & Hrun & Ht); [auto|auto|].
    exists w'. by rewrite Entity_check_attrs.
Qed.

(** ** Construction from the default file *)

Lemma assigned_none self k l d h h' x :
  assigned self k l d h h' → h' !! x = None → h !! x = None.
Proof.
  intros Ha Hx. apply not_elem_of_dom. intros Hin.
  apply (assigned_dom _ _ _ _ _ _ _ Ha), elem_of_dom in Hin as [o Ho]. congruence.
Qed.

(** One statement of the default branch of [__init__], on an Entity whose
    dictionary has no entry [def_file]. *)
Lemma fill_default_spec self k w d0 :
  is_entity (heap w) self →
  attr_val (heap w) self "def_file" = None →
  coll_init k [VStr ENT_DEF_XLS] = inl d0 →
  ∃ l w',
    fill_default self k w = (Ok tt, w')
    ∧ assigned self k l d0 (heap w) (heap w')
    ∧ trace w' = trace w ++ [EvNew k [VStr ENT_DEF_XLS]].
Proof.
  intros [dict Hself] Hdf Hd0. unfold attr_val in Hdf. rewrite Hself in Hdf.
  set (l := fresh (dom (heap w))).
  assert (l ≠ self) as Hne by (by eapply fresh_ne).
  exists l. eexists. split; [|split].
  - unfold fill_default. unfold bind at 1, getattr. rewrite Hself, Hdf. simpl.
    rewrite (bind_ok _ _ _ _ _ (new_ok _ _ _ _ Hd0)). fold l.
    rewrite setattr_guarded. cbn [heap trace isinstance].
    rewrite lookup_insert_eq, issubclass_refl.
    erewrite object_setattr_ordinary;
      [done|apply special_attr|by cbn [heap]; rewrite lookup_insert_ne, Hself].
  - cbn [heap]. split; [apply fresh_lookup|]. split; [|split].
    + exists dict. split; [done|]. apply lookup_insert_eq.
    + by rewrite lookup_insert_ne, lookup_insert_eq.
    + intros l' H1 H2. by rewrite !lookup_insert_ne.
  - done.
Qed.

Lemma refers_holds h self k l d :
  refers h self k l (ClsColl k) d → holds h self k.
Proof.
  intros [Hv Ho]. exists (VRef l). split; [done|].
  simpl. rewrite Ho. apply issubclass_refl.
Qed.

(** C2.  When the constructor of each of the four collections returns on
    the default file [def_file = ENT_DEF_XLS], [Entity()] returns a new
    instance whose four attributes refer to four new objects, each of
    exactly its collection class and in the state its constructor built
    from the default file; the only calls made are these four constructor
    calls, each with the default file as its single argument. *)
Theorem Entity_default w description (D : coll -> Data) :
  (∀ k, coll_init k [VStr ENT_DEF_XLS] = inl (D k)) →
  ∃ self w' L,
    Entity_new VNone description w = (Ok self, w')
    ∧ heap w !! self = None
    ∧ (∀ k, heap w !! L k = None
            ∧ refers (heap w') self k (L k) (ClsColl k) (D k))
    ∧ typed (heap w') self
    ∧ trace w' =
        trace w ++ map (fun k => EvNew k [VStr ENT_DEF_XLS]) default_order.
Proof.
  intros Hinit.
  set (self := fresh (dom (heap w))).
  set (w0 := World (<[self := ObjEntity ∅]> (heap w)) (trace w)).
  assert (is_entity (heap w0) self) as He0 by (exists ∅; apply lookup_insert_eq).
  assert (attr_val (heap w0) self "def_file" = None) as Hdf0.
  { unfold attr_val. cbn [heap w0]. by rewrite lookup_insert_eq. }
  destruct (fill_default_spec self Exposures w0 _ He0 Hdf0 (Hinit Exposures))
    as (l1 & w1 & R1 & A1 & T1).
  pose proof (assigned_entity _ _ _ _ _ _ A1) as He1.
  assert (attr_val (heap w1) self "def_file" = None) as Hdf1.
  { by rewrite (assigned_attr_val _ _ _ _ _ _ _ A1). }
  destruct (fill_default_spec self ImpactFuncs w1 _ He1 Hdf1 (Hinit ImpactFuncs))
    as (l2 & w2 & R2 & A2 & T2).
  pose proof (assigned_entity _ _ _ _ _ _ A2) as He2.
  assert (attr_val (heap w2) self "def_file" = None) as Hdf2.
  { by rewrite (assigned_attr_val _ _ _ _ _ _ _ A2). }
  destruct (fill_default_spec self Measures w2 _ He2 Hdf2 (Hinit Measures))
    as (l3 & w3 & R3 & A3 & T3).
  pose proof (assigned_entity _ _ _ _ _ _ A3) as He3.
  assert (attr_val (heap w3) self "def_file" = None) as Hdf3.
  { by rewrite (assigned_attr_val _ _ _ _ _ _ _ A3). }
  destruct (fill_default_spec self DiscRates w3 _ He3 Hdf3 (Hinit DiscRates))
    as (l4 & w4 & R4 & A4 & T4).
  assert (∀ x, heap w0 !! x = None → heap w !! x = None) as Hw0.
  { intros x Hx. cbn [heap w0] in Hx. by apply lookup_insert_None in Hx as [Hx _]. }
  set (L := fun k => match k with
                     | Exposures => l1 | ImpactFuncs => l2
                     | Measures => l3 | DiscRates => l4
                     end).
  assert (∀ k, heap w !! L k = None
               ∧ refers (heap w4) self k (L k) (ClsColl k) (D k)) as Hrefers.
  { intros k. destruct k; simpl; split.
    - apply Hw0, A1.
    - repeat (eapply assigned_refers_other; [eassumption|done|]).
      by eapply assigned_refers.
    - apply Hw0. eapply assigned_none; [exact A1|]. apply A2.
    - repeat (eapply assigned_refers_other; [eassumption|done|]).
      by eapply assigned_refers.
    - apply Hw0. do 2 (eapply assigned_none; [eassumption|]). apply A3.
    - repeat (eapply assigned_refers_other; [eassumption|done|]).
      by eapply assigned_refers.
    - apply Hw0. do 3 (eapply assigned_none; [eassumption|]). apply A4.
    - by eapply assigned_refers. }
  exists self, w4, L. split; [|split; [|split; [|split]]].
  - rewrite Entity_new_alloc. fold self w0. rewrite Entity_init_default.
    by rewrite (bind_ok _ _ _ _ _ R1), (bind_ok _ _ _ _ _ R2),
      (bind_ok _ _ _ _ _ R3), R4.
  - apply fresh_lookup.
  - done.
  - intros k. eapply refers_holds, Hrefers.
  - rewrite T4, T3, T2, T1. cbn [trace w0 map default_order].
    by rewrite <- !app_assoc.
Qed.

(** ** The guard of [__setattr__] *)

(** C6.  Assigning to one of the four guarded attributes a value that is
    not an instance of its collection class raises [ValueError] and leaves
    the store as it was: the attribute keeps the value it had, no other
    attribute of this or of any object changes; the one effect is the line
    written to the error log. *)
Theorem wrong_type_rejected w self k v :
  isinstance (heap w) v k = false →
  Entity_setattr self (attr k) v w =
    (Raise ValueError, World (heap w) (trace w ++ [EvLogError (guard_msg k)])).
Proof. intros Hi. by rewrite setattr_guarded, Hi. Qed.

(** C7 (amended).  Assigning to an attribute of an Entity whose name is
    none of the four guarded names is the assignment of the base class, for
    any value: the Entity applies no test and logs nothing.  For every name
    other than [__class__], [__dict__] and [__weakref__], which [object]
    manages itself, the assignment returns and the value is stored under
    that name in the instance dictionary. *)
Theorem unguarded_assignment w self dict name v :
  ¬ guarded name →
  heap w !! self = Some (ObjEntity dict) →
  Entity_setattr self name v w = object_setattr self name v w
  ∧ (special name = false →
     Entity_setattr self name v w =
       (Ok tt,
        World (<[self := ObjEntity (<[name := v]> dict)]> (heap w)) (trace w))).
Proof.
  intros Hn Hs. rewrite setattr_unguarded by done. split; [done|].
  intros Hsp. by apply object_setattr_ordinary.
Qed.

End Proofs.

(** * Further properties of the class *)

Ltac by_cases_on_steps :=
  repeat match goal with
         | |- context [match ?m ?w0 with _ => _ end] =>
             destruct (m w0) as [[?|?] ?]; try done
         end;
  repeat match goal with u : unit |- _ => destruct u end;
  try done.

Section Further.
Context `{Collaborators}.

Implicit Types (w : world) (h : gmap loc object) (self l : loc) (k : coll)
  (v r : value) (name : string).

(** ** Assignment and lookup *)

(** X1.  On an Entity, the assignment to a guarded attribute returns
    exactly when the value is an instance of the attribute's collection
    class or of a class derived from it; it then stores the value under the
    attribute's name and writes nothing to the log. *)
Theorem guarded_assignment_accepts w self dict k v :
  heap w !! self = Some (ObjEntity dict) →
  ((Entity_setattr self (attr k) v w).1 = Ok tt
   ↔ isinstance (heap w) v k = true)
  ∧ (isinstance (heap w) v k = true →
     Entity_setattr self (attr k) v w =
       (Ok tt,
        World (<[self := ObjEntity (<[attr k := v]> dict)]> (heap w)) (trace w))).
Proof.
  intros Hs. rewrite setattr_guarded.
  rewrite (object_setattr_ordinary _ _ _ _ _ (special_attr k) Hs).
  by destruct (isinstance (heap w) v k).
Qed.


(** ** What [read] replaces and what it leaves *)

Lemma fill_ctor_fail self k f d w e :
  coll_init k [] = inr e →
  fill self k f d w = (Raise e, World (heap w) (trace w ++ [EvNew k []])).
Proof.
  intros Hd. unfold fill. by rewrite (bind_raise _ _ _ _ _ (new_fail _ _ _ _ Hd)).
Qed.

Lemma fill_all_app self f d pre rest w :
  fill_all self f d (pre ++ rest) w =
    bind (fill_all self f d pre) (fun _ => fill_all self f d rest) w.
Proof.
  revert w. induction pre as [|k pre IH]; intros w; [done|].
  simpl. rewrite bind_assoc.
  destruct (fill self k f d w) as [[u|e] w1] eqn:Hf.
  - rewrite (bind_ok _ _ _ _ _ Hf), (bind_ok _ _ _ _ _ Hf). apply IH.
  - by rewrite (bind_raise _ _ _ _ _ Hf), (bind_raise _ _ _ _ _ Hf).
Qed.

Lemma untouched_refl self h : untouched self h h.
Proof. by intros l o Ho _. Qed.

Lemma untouched_trans self h1 h2 h3 :
  untouched self h1 h2 → untouched self h2 h3 → untouched self h1 h3.
Proof. intros H12 H23 l o Ho Hne. apply H23; [|done]. by apply H12. Qed.

Lemma assigned_untouched self k l d h h' :
  assigned self k l d h h' → untouched self h h'.
Proof. intros Ha l' o Ho Hne. by eapply assigned_old. Qed.

(** One block of [read] on an Entity, whatever the collection does. *)
Lemma fill_untouched self k f d w :
  is_entity (heap w) self →
  is_entity (heap (fill self k f d w).2) self
  ∧ untouched self (heap w) (heap (fill self k f d w).2).
Proof.
  intros He. destruct (coll_init k []) as [d0|e] eqn:Hd.
  - destruct (fill_spec self k f d w d0 He Hd) as (l & w' & -> & Ha & _).
    split; [by eapply assigned_entity | by eapply assigned_untouched].
  - rewrite (fill_ctor_fail _ _ _ _ _ _ Hd). split; [done | apply untouched_refl].
Qed.

Lemma fill_all_untouched self f d ks : ∀ w,
  is_entity (heap w) self →
  is_entity (heap (fill_all self f d ks w).2) self
  ∧ untouched self (heap w) (heap (fill_all self f d ks w).2).
Proof.
  induction ks as [|k ks IH]; intros w He.
  - split; [done | apply untouched_refl].
  - simpl. unfold bind. destruct (fill_untouched self k f d w He) as [He1 Hu1].
    destruct (fill self k f d w) as [[u|e] w1]; [|done].
    destruct (IH w1 He1) as [He2 Hu2]. split; [done|]. by eapply untouched_trans.
Qed.


Lemma before_not_from k k' k0 order :
  NoDup order → k0 ∈ order →
  k ∈ k0 :: after k0 order → k' ∈ before k0 order → k ≠ k'.
Proof.
  intros Hnd Hk0 Hk Hk' ->.
  rewrite (order_split k0 order Hk0) in Hnd.
  apply NoDup_app in Hnd as (_ & Hdisj & _). by apply (Hdisj k' Hk').
Qed.

Lemma NoDup_before k0 order : NoDup order → k0 ∈ order → NoDup (before k0 order).
Proof.
  intros Hnd Hk0. rewrite (order_split k0 order Hk0) in Hnd.
  by apply NoDup_app in Hnd as (Hpre & _ & _).
Qed.

(** X4.  When the constructor of collection [k0] raises during [read] (the
    collections before it having been read), [read] raises the same
    exception without having called the [read] of [k0]; the attributes of
    the collections before [k0] refer to new objects holding what was read,
    and the attributes of [k0] and of the collections after it are bound as
    before the call. *)
Theorem read_constructor_failure w self f d (D0 : coll -> Data) k0 e :
  is_entity (heap w) self →
  (∀ k, k ∈ before k0 read_order → coll_init k [] = inl (D0 k)) →
  (∀ k, k ∈ before k0 read_order →
     (coll_read (ClsColl k) (D0 k) f d).2 = None) →
  coll_init k0 [] = inr e →
  ∃ w' L,
    Entity_read self f d w = (Raise e, w')
    ∧ (∀ k, k ∈ before k0 read_order →
         heap w !! L k = None
         ∧ refers (heap w') self k (L k) (ClsColl k)
             (coll_read (ClsColl k) (D0 k) f d).1)
    ∧ (∀ k, k ∈ k0 :: after k0 read_order →
         attr_val (heap w') self (attr k) = attr_val (heap w) self (attr k))
    ∧ trace w' =
        trace w ++
        flat_map (fun k => [EvNew k []; EvRead (L k) f d]) (before k0 read_order)
        ++ [EvNew k0 []].
Proof.
  intros He Hinit Hread Hfail.
  destruct (fill_all_ok self f d D0 (before k0 read_order) w)
    as (w1 & L & Hrun & _ & Hks & Hattr & _ & Ht); try done.
  { apply NoDup_before; [apply NoDup_read_order | apply in_read_order]. }
  exists (World (heap w1) (trace w1 ++ [EvNew k0 []])), L.
  split; [|split; [done|split]].
  - rewrite Entity_read_fill, (order_split k0 _ (in_read_order k0)), fill_all_app.
    rewrite (bind_ok _ _ _ _ _ Hrun). simpl.
    by rewrite (bind_raise _ _ _ _ _ (fill_ctor_fail _ _ _ _ _ _ Hfail)).
  - intros k Hk. cbn [heap]. apply Hattr. intros k' Hk' Heq.
    apply attr_inj in Heq.
    exact (before_not_from k k' k0 read_order NoDup_read_order
             (in_read_order k0) Hk Hk' Heq).
  - cbn [trace]. by rewrite Ht, <- app_assoc.
Qed.

Lemma refers_distinct h self k k' l c d c' d' :
  refers h self k l c d → refers h self k' l c' d' → c = c'.
Proof. intros [_ Ho] [_ Ho']. congruence. Qed.

(** X5.  When the four constructors and the four reads return, [read]
    leaves the four attributes referring to four pairwise distinct objects,
    none of which existed before the call. *)
Theorem read_binds_new_objects w self f d (D0 : coll -> Data) :
  is_entity (heap w) self →
  (∀ k, coll_init k [] = inl (D0 k)) →
  (∀ k, (coll_read (ClsColl k) (D0 k) f d).2 = None) →
  ∃ w' L,
    Entity_read self f d w = (Ok tt, w')
    ∧ (∀ k, heap w !! L k = None
            ∧ refers (heap w') self k (L k) (ClsColl k)
                (coll_read (ClsColl k) (D0 k) f d).1)
    ∧ (∀ k k', k ≠ k' → L k ≠ L k').
Proof.
  intros He Hinit Hread.
  destruct (fill_all_ok self f d D0 read_order w NoDup_read_order He)
    as (w' & L & Hrun & _ & Hks & _); [auto|auto|].
  exists w', L. rewrite Entity_read_fill. split; [done|]. split.
  - intros k. apply (Hks k (in_read_order k)).
  - intros k k' Hne Heq.
    destruct (Hks k (in_read_order k)) as [_ Hr].
    destruct (Hks k' (in_read_order k')) as [_ Hr']. rewrite Heq in Hr.
    pose proof (refers_distinct _ _ _ _ _ _ _ _ _ Hr Hr'). congruence.
Qed.

(** ** The default branch of [__init__] *)

Lemma Entity_init_default_all self d w :
  Entity_init self VNone d w = fill_default_all self default_order w.
Proof.
  unfold Entity_init, fill_default_all, fill_default. simpl.
  unfold bind, ret. by_cases_on_steps.
Qed.

Lemma fill_default_all_app self pre rest w :
  fill_default_all self (pre ++ rest) w =
    bind (fill_default_all self pre) (fun _ => fill_default_all self rest) w.
Proof.
  revert w. induction pre as [|k pre IH]; intros w; [done|].
  simpl. rewrite bind_assoc.
  destruct (fill_default self k w) as [[u|e] w1] eqn:Hf.
  - rewrite (bind_ok _ _ _ _ _ Hf), (bind_ok _ _ _ _ _ Hf). apply IH.
  - by rewrite (bind_raise _ _ _ _ _ Hf), (bind_raise _ _ _ _ _ Hf).
Qed.

Lemma getattr_def_file self w :
  is_entity (heap w) self →
  getattr self "def_file" w = (Ok (def_file_of (heap w) self), w).
Proof.
  intros [dict Hs]. unfold getattr, def_file_of, attr_val. rewrite Hs.
  by destruct (dict !! "def_file").
Qed.

(** One statement of the default branch on an Entity: the constructor gets
    [self.def_file]; when it returns, the attribute is bound to the new
    object, and when it raises, nothing is bound. *)
Lemma fill_default_run self k w :
  is_entity (heap w) self →
  match coll_init k [def_file_of (heap w) self] with
  | inl d0 =>
      ∃ l w',
        fill_default self k w = (Ok tt, w')
        ∧ assigned self k l d0 (heap w) (heap w')
        ∧ trace w' = trace w ++ [EvNew k [def_file_of (heap w) self]]
  | inr e =>
      fill_default self k w =
        (Raise e,
         World (heap w) (trace w ++ [EvNew k [def_file_of (heap w) self]]))
  end.
Proof.
  intros He. pose proof (getattr_def_file self w He) as Hget.
  destruct He as [dict Hself].
  destruct (coll_init k [def_file_of (heap w) self]) as [d0|e] eqn:Hd.
  - set (l := fresh (dom (heap w))).
    assert (l ≠ self) as Hne by (by eapply fresh_ne).
    exists l. eexists. split; [|split].
    + unfold fill_default. rewrite (bind_ok _ _ _ _ _ Hget).
      rewrite (bind_ok _ _ _ _ _ (new_ok _ _ _ _ Hd)). fold l.
      rewrite setattr_guarded. cbn [heap trace isinstance].
      rewrite lookup_insert_eq, issubclass_refl.
      erewrite object_setattr_ordinary;
        [done|apply special_attr|by cbn [heap]; rewrite lookup_insert_ne, Hself].
    + cbn [heap]. split; [apply fresh_lookup|]. split; [|split].
      * exists dict. split; [done|]. apply lookup_insert_eq.
      * by rewrite lookup_insert_ne, lookup_insert_eq.
      * intros l' H1 H2. by rewrite !lookup_insert_ne.
    + done.
  - unfold fill_default. rewrite (bind_ok _ _ _ _ _ Hget).
    by rewrite (bind_raise _ _ _ _ _ (new_fail _ _ _ _ Hd)).
Qed.

Lemma assigned_def_file self k l d h h' :
  assigned self k l d h h' → def_file_of h' self = def_file_of h self.
Proof.
  intros Ha. unfold def_file_of.
  rewrite (assigned_attr_val _ _ _ _ _ _ "def_file" Ha); [done|]. by destruct k.
Qed.

Lemma fill_default_all_ok self (D : coll -> Data) ks : ∀ w,
  is_entity (heap w) self →
  (∀ k, k ∈ ks → coll_init k [def_file_of (heap w) self] = inl (D k)) →
  ∃ w',
    fill_default_all self ks w = (Ok tt, w')
    ∧ is_entity (heap w') self
    ∧ def_file_of (heap w') self = def_file_of (heap w) self
    ∧ untouched self (heap w) (heap w')
    ∧ trace w' =
        trace w ++ map (fun k => EvNew k [def_file_of (heap w) self]) ks.
Proof.
  induction ks as [|k ks IH]; intros w He Hinit.
  - exists w. split; [done|]. split; [done|]. split; [done|].
    split; [apply untouched_refl|]. simpl. by rewrite app_nil_r.
  - pose proof (fill_default_run self k w He) as Hrun.
    rewrite (Hinit k) in Hrun by (by left).
    destruct Hrun as (l & w1 & Hrun & Ha & Ht).
    pose proof (assigned_def_file _ _ _ _ _ _ Ha) as Hdf.
    destruct (IH w1) as (w' & Hrest & He' & Hdf' & Hu & Ht').
    { by eapply assigned_entity. }
    { intros k' Hk'. rewrite Hdf. apply Hinit. by right. }
    exists w'. split; [|split; [done|split; [|split]]].
    + simpl. by rewrite (bind_ok _ _ _ _ _ Hrun).
    + by rewrite Hdf'.
    + eapply untouched_trans; [|done]. by eapply assigned_untouched.
    + rewrite Ht', Ht, Hdf. simpl. by rewrite <- app_assoc.
Qed.

Lemma in_default_order k : k ∈ default_order.
Proof. destruct k; by apply (bool_decide_unpack _). Qed.

Lemma alloc_entity_facts w :
  let self := fresh (dom (heap w)) in
  let h0 := <[self := ObjEntity ∅]> (heap w) in
  is_entity h0 self
  ∧ def_file_of h0 self = VStr ENT_DEF_XLS
  ∧ ∀ l o, heap w !! l = Some o → h0 !! l = Some o ∧ l ≠ self.
Proof.
  intros self h0. split; [|split].
  - exists ∅. apply lookup_insert_eq.
  - unfold def_file_of, attr_val, h0. by rewrite lookup_insert_eq.
  - intros l o Ho. assert (l ≠ self) as Hne.
    { intros ->. unfold self in Ho. by rewrite fresh_lookup in Ho. }
    split; [|done]. unfold h0. by rewrite lookup_insert_ne.
Qed.

(** X6.  When, in [Entity()], the constructor of collection [k0] raises on
    the default file (the constructors before it, in the order exposures,
    impact functions, measures, discount rates, having returned), the
    construction raises the same exception and returns no instance; the
    constructors after [k0] are not called, and every object that existed
    before is as it was. *)
Theorem Entity_default_failure w description (D : coll -> Data) k0 e :
  (∀ k, k ∈ before k0 default_order →
     coll_init k [VStr ENT_DEF_XLS] = inl (D k)) →
  coll_init k0 [VStr ENT_DEF_XLS] = inr e →
  ∃ w',
    Entity_new VNone description w = (Raise e, w')
    ∧ trace w' =
        trace w ++
        map (fun k => EvNew k [VStr ENT_DEF_XLS]) (upto k0 default_order)
    ∧ ∀ l o, heap w !! l = Some o → heap w' !! l = Some o.
Proof.
  intros Hinit Hfail.
  destruct (alloc_entity_facts w) as (He0 & Hdf0 & Hold).
  set (self := fresh (dom (heap w))) in *.
  set (w0 := World (<[self := ObjEntity ∅]> (heap w)) (trace w)).
  destruct (fill_default_all_ok self D (before k0 default_order) w0 He0)
    as (w1 & Hrun & He1 & Hdf1 & Hu & Ht).
  { intros k Hk. cbn [heap w0]. rewrite Hdf0. by apply Hinit. }
  cbn [heap w0] in Hdf1, Ht. rewrite Hdf0 in Hdf1, Ht.
  pose proof (fill_default_run self k0 w1 He1) as Hk0.
  rewrite Hdf1, Hfail in Hk0.
  exists (World (heap w1) (trace w1 ++ [EvNew k0 [VStr ENT_DEF_XLS]])).
  split; [|split].
  - rewrite Entity_new_alloc. fold self w0. rewrite Entity_init_default_all.
    rewrite (order_split k0 _ (in_default_order k0)), fill_default_all_app.
    rewrite (bind_ok _ _ _ _ _ Hrun). simpl.
    by rewrite (bind_raise _ _ _ _ _ Hk0).
  - cbn [trace]. rewrite Ht, (upto_before _ _ (in_default_order k0)).
    cbn [trace w0]. by rewrite map_app, <- app_assoc.
  - intros l o Ho. cbn [heap]. destruct (Hold l o Ho) as [Ho0 Hne].
    by apply Hu.
Qed.

(** X7.  When the instance dictionary of an Entity has an entry [def_file],
    running [__init__] on it without a file name passes that entry, whatever
    it is, to the four constructors instead of [ENT_DEF_XLS]: the default
    file is looked up through the instance. *)
Theorem init_uses_instance_def_file w self description v (D : coll -> Data) :
  is_entity (heap w) self →
  attr_val (heap w) self "def_file" = Some v →
  (∀ k, coll_init k [v] = inl (D k)) →
  ∃ w',
    Entity_init self VNone description w = (Ok tt, w')
    ∧ trace w' = trace w ++ map (fun k => EvNew k [v]) default_order.
Proof.
  intros He Hv Hinit.
  assert (def_file_of (heap w) self = v) as Hdf.
  { unfold def_file_of. by rewrite Hv. }
  destruct (fill_default_all_ok self D default_order w He)
    as (w' & Hrun & _ & _ & _ & Ht).
  { intros k _. rewrite Hdf. apply Hinit. }
  exists w'. rewrite Entity_init_default_all. split; [done|]. by rewrite Ht, Hdf.
Qed.

(** ** Construction and the objects that exist *)

Lemma fill_default_untouched self k w :
  is_entity (heap w) self →
  is_entity (heap (fill_default self k w).2) self
  ∧ untouched self (heap w) (heap (fill_default self k w).2).
Proof.
  intros He. pose proof (fill_default_run self k w He) as Hrun.
  destruct (coll_init k [def_file_of (heap w) self]) as [d0|e].
  - destruct Hrun as (l & w' & -> & Ha & _).
    split; [by eapply assigned_entity | by eapply assigned_untouched].
  - rewrite Hrun. split; [done | apply untouched_refl].
Qed.

Lemma fill_default_all_untouched self ks : ∀ w,
  is_entity (heap w) self →
  is_entity (heap (fill_default_all self ks w).2) self
  ∧ untouched self (heap w) (heap (fill_default_all self ks w).2).
Proof.
  induction ks as [|k ks IH]; intros w He.
  - split; [done | apply untouched_refl].
  - simpl. unfold bind. destruct (fill_default_untouched self k w He) as [He1 Hu1].
    destruct (fill_default self k w) as [[u|e] w1]; [|done].
    destruct (IH w1 He1) as [He2 Hu2]. split; [done|]. by eapply untouched_trans.
Qed.

Lemma Entity_init_untouched self f d w :
  is_entity (heap w) self →
  attr_val (heap w) self "read" = None →
  is_entity (heap (Entity_init self f d w).2) self
  ∧ untouched self (heap w) (heap (Entity_init self f d w).2).
Proof.
  intros He Hr.
  destruct f;
    try (rewrite Entity_init_file, Entity_read_fill by done;
         by apply fill_all_untouched).
  rewrite Entity_init_default_all. by apply fill_default_all_untouched.
Qed.

(** X8.  Constructing an Entity, from the default file or from a given
    one, whether it returns or raises, leaves every object that existed
    before the call as it was; when it returns, the instance it returns did
    not exist before. *)
Theorem Entity_new_leaves_existing w f d :
  (∀ l o, heap w !! l = Some o → heap (Entity_new f d w).2 !! l = Some o)
  ∧ match Entity_new f d w with
    | (Ok self, w') => heap w !! self = None ∧ is_entity (heap w') self
    | (Raise _, _) => True
    end.
Proof.
  destruct (alloc_entity_facts w) as (He0 & _ & Hold).
  rewrite Entity_new_alloc.
  set (self := fresh (dom (heap w))) in *.
  set (w0 := World (<[self := ObjEntity ∅]> (heap w)) (trace w)).
  assert (attr_val (heap w0) self "read" = None) as Hr0.
  { unfold attr_val. cbn [heap w0]. by rewrite lookup_insert_eq. }
  destruct (Entity_init_untouched self f d w0 He0 Hr0) as [He Hu].
  destruct (Entity_init self f d w0) as [[u|e] w'] eqn:Hinit; cbn [snd] in *.
  - split; [|split; [apply fresh_lookup | done]].
    intros l o Ho. destruct (Hold l o Ho). by apply Hu.
  - split; [|done]. intros l o Ho. destruct (Hold l o Ho). by apply Hu.
Qed.

(** ** Reading, then checking *)

(** X9.  After a [read] that returned, [check] goes through the four new
    collections, which are four distinct objects: it raises the exception
    of the first one, in the order discount rates, exposures, impact
    functions, measures, whose check rejects what was read, having called
    the checks up to that one only, and it returns when the four checks
    accept what was read. *)
Theorem read_then_check w self f d (D0 : coll -> Data) :
  is_entity (heap w) self →
  (∀ k, coll_init k [] = inl (D0 k)) →
  (∀ k, (coll_read (ClsColl k) (D0 k) f d).2 = None) →
  ∃ w1 L,
    Entity_read self f d w = (Ok tt, w1)
    ∧ (∀ k0 e,
         (∀ k, k ∈ before k0 check_order →
            (coll_check (ClsColl k) (coll_read (ClsColl k) (D0 k) f d).1).2 = None) →
         (coll_check (ClsColl k0) (coll_read (ClsColl k0) (D0 k0) f d).1).2
         = Some e →
         ∃ w',
           bind (Entity_read self f d) (fun _ => Entity_check self) w
           = (Raise e, w')
           ∧ trace w' =
               trace w1 ++ map (fun k => EvCheck (L k)) (upto k0 check_order))
    ∧ ((∀ k, (coll_check (ClsColl k) (coll_read (ClsColl k) (D0 k) f d).1).2
             = None) →
       ∃ w',
         bind (Entity_read self f d) (fun _ => Entity_check self) w = (Ok tt, w')
         ∧ trace w' = trace w1 ++ map (fun k => EvCheck (L k)) check_order).
Proof.
  intros He Hinit Hread.
  destruct (fill_all_ok self f d D0 read_order w NoDup_read_order He)
    as (w1 & L & Hrun & _ & Hks & _); [auto|auto|].
  rewrite <- Entity_read_fill in Hrun.
  assert (∀ k, refers (heap w1) self k (L k) (ClsColl k)
                 (coll_read (ClsColl k) (D0 k) f d).1) as Href.
  { intros k. apply (Hks k (in_read_order k)). }
  assert (∀ k k', k ≠ k' → L k ≠ L k') as Hdistinct.
  { intros k k' Hne Heq. pose proof (Href k) as Hr. rewrite Heq in Hr.
    pose proof (refers_distinct _ _ _ _ _ _ _ _ _ Hr (Href k')). congruence. }
  exists w1, L. split; [done|]. split.
  - intros k0 e Hvalid Hfail.
    rewrite (upto_before _ _ (in_check_order k0)).
    destruct (check_all_fail self L ClsColl
                (fun k => (coll_read (ClsColl k) (D0 k) f d).1) Hdistinct k0 e
                (after k0 check_order) (before k0 check_order) w1)
      as (w' & Hcheck & Ht); try done.
    { pose proof NoDup_check_order as Hnd.
      rewrite (order_split k0 _ (in_check_order k0)) in Hnd.
      apply NoDup_app in Hnd as (Hpre & Hdisj & Hpost).
      apply NoDup_app. split; [done|]. split; [|apply NoDup_singleton].
      intros k Hk Hk0. apply (Hdisj k Hk).
      apply list_elem_of_singleton in Hk0 as ->. by left. }
    exists w'. split; [|done]. rewrite (bind_ok _ _ _ _ _ Hrun).
    by rewrite Entity_check_attrs, (order_split k0 _ (in_check_order k0)).
  - intros Hvalid.
    destruct (check_all_ok self L ClsColl
                (fun k => (coll_read (ClsColl k) (D0 k) f d).1) Hdistinct
                check_order w1 NoDup_check_order)
      as (w' & Hcheck & Ht); [auto|auto|].
    exists w'. split; [|done]. rewrite (bind_ok _ _ _ _ _ Hrun).
    by rewrite Entity_check_attrs.
Qed.

(** ** Checking a well-typed Entity *)

Lemma grows_trans h1 h2 h3 : grows h1 h2 → grows h2 h3 → grows h1 h3.
Proof.
  intros [He12 Ho12] [He23 Ho23]. split.
  - intros e dict Hs. by apply He23, He12.
  - intros l c d Ho. destruct (Ho12 l c d Ho) as [d' Ho']. by eapply Ho23.
Qed.

(** The check of an attribute that holds an instance of its class is the
    check of that instance. *)
Lemma check_attr_cases self k w :
  holds (heap w) self k →
  ∃ c d,
    issubclass c k = true
    ∧ (check_attr self k w).1 =
        match (coll_check c d).2 with Some e => Raise e | None => Ok tt end
    ∧ grows (heap w) (heap (check_attr self k w).2).
Proof.
  intros (v & Hv & Hi). destruct v as [| | | |l|]; try done. simpl in Hi.
  destruct (heap w !! l) as [[dict|c d]|] eqn:Hl; try done.
  exists c, d. split; [done|].
  rewrite (check_attr_spec self k l c d w); [|by split].
  split; [done|]. cbn [snd heap]. by eapply grows_update.
Qed.

Lemma check_all_cases self ks : ∀ w,
  (∀ k, k ∈ ks → holds (heap w) self k) →
  ((check_all self ks w).1 = Ok tt
   ∨ ∃ k c d e,
       k ∈ ks ∧ issubclass c k = true ∧ (coll_check c d).2 = Some e
       ∧ (check_all self ks w).1 = Raise e)
  ∧ grows (heap w) (heap (check_all self ks w).2).
Proof.
  induction ks as [|k ks IH]; intros w Hholds.
  - split; [by left | apply grows_refl].
  - destruct (check_attr_cases self k w) as (c & d & Hc & Hrun & Hg).
    { apply Hholds. by left. }
    simpl. unfold bind.
    destruct (check_attr self k w) as [[u|e'] w1] eqn:Hck; cbn [fst snd] in *.
    + destruct (IH w1) as [Hcases Hg'].
      { intros k' Hk'. eapply grows_holds; [done|]. apply Hholds. by right. }
      split; [|by eapply grows_trans].
      destruct Hcases as [Hok|(k' & c' & d' & e & Hk' & Hc' & He & Hr)]; [by left|].
      right. exists k', c', d', e. split; [by right|done].
    + split; [|done]. right. exists k, c, d, e'.
      split; [by left|]. split; [done|].
      destruct (coll_check c d).2; by simplify_eq.
Qed.

(** X10.  On an Entity whose four attributes hold instances of their
    classes, [check] does not fail by itself: it returns, or it raises an
    exception that the check of an instance of one of the four collection
    classes (or of a subclass) raised; and the four attributes still hold
    instances of their classes afterwards. *)
Theorem check_fails_only_in_collections w self :
  typed (heap w) self →
  ((Entity_check self w).1 = Ok tt
   ∨ ∃ k c d e,
       issubclass c k = true ∧ (coll_check c d).2 = Some e
       ∧ (Entity_check self w).1 = Raise e)
  ∧ typed (heap (Entity_check self w).2) self.
Proof.
  intros Ht. rewrite Entity_check_attrs.
  destruct (check_all_cases self check_order w) as [Hcases Hg]; [by intros k _|].
  split.
  - destruct Hcases as [Hok|(k & c & d & e & _ & Hc & He & Hr)]; [by left|].
    right. by exists k, c, d, e.
  - intros k. by eapply grows_holds.
Qed.

End Further.

(** * The theorems on the small instance *)

Section Instances.
Local Existing Instance Demo.collaborators.


Lemma Entity_default_witness :
  ∃ self w',
    Entity_new VNone VNone Demo.empty_world = (Ok self, w')
    ∧ typed (heap w') self.
Proof.
  destruct (Entity_default Demo.empty_world VNone
              (fun _ => ["entity_default.xls"]))
    as (self & w' & L & Hrun & _ & _ & Ht & _).
  - intros k. reflexivity.
  - exists self, w'. split; [exact Hrun | exact Ht].
Defined.

Lemma Entity_from_file_witness :
  ∃ self w',
    Entity_new (VStr "entity.xls") VNone Demo.empty_world = (Ok self, w')
    ∧ ∀ k, ∃ v,
        attr_val (heap w') self (attr k) = Some v
        ∧ contents (heap w') v = Some (ObjData (ClsColl k) ["entity.xls"]).
Proof.
  destruct (Entity_from_file Demo.empty_world (VStr "entity.xls") VNone
              (fun _ => []))
    as (self & w' & Hrun & _ & _ & Hk).
  - discriminate.
  - intros k. reflexivity.
  - intros k. destruct k; reflexivity.
  - exists self, w'. split; [exact Hrun|]. intros k.
    destruct (Hk k Demo.empty_world) as (v & x & w0' & Hv & _ & _ & Hc).
    exists v. split; [exact Hv|]. rewrite Hc. destruct k; reflexivity.
Defined.

Lemma read_failure_fresh_instance_witness :
  ∃ w' l,
    Entity_read 1 (VStr "no_disc_rates.xls") VNone Demo.default_world
    = (Raise (OtherError "KeyError"), w')
    ∧ heap Demo.default_world !! l = None
    ∧ refers (heap w') 1 DiscRates l (ClsColl DiscRates) [].
Proof.
  destruct (read_failure_fresh_instance Demo.default_world 1
              (VStr "no_disc_rates.xls") VNone (fun _ => []) DiscRates
              (OtherError "KeyError"))
    as (w' & l & Hrun & Hnew & Href & _).
  - eexists. vm_compute. reflexivity.
  - intros k _. reflexivity.
  - intros k Hk. destruct k; try reflexivity.
    exfalso. cbv [before read_order] in Hk. simpl in Hk.
    apply elem_of_cons in Hk as [Hk|Hk]; [discriminate|].
    by apply elem_of_nil in Hk.
  - reflexivity.
  - exists w', l. split; [exact Hrun|]. split; [exact Hnew | exact Href].
Defined.

Lemma read_failure_no_rollback_witness :
  ∃ w',
    Entity_read 1 (VStr "no_impact_funcs.xls") VNone Demo.default_world
    = (Raise (OtherError "KeyError"), w')
    ∧ attr_val (heap w') 1 "measures"
      = attr_val (heap Demo.default_world) 1 "measures".
Proof.
  destruct (read_failure_no_rollback Demo.default_world 1
              (VStr "no_impact_funcs.xls") VNone (fun _ => []) ImpactFuncs
              (OtherError "KeyError"))
    as (w' & L & Hrun & _ & _ & Hafter & _).
  - eexists. vm_compute. reflexivity.
  - intros k _. reflexivity.
  - intros k Hk. destruct k; try reflexivity.
    exfalso. cbv [before read_order] in Hk. simpl in Hk.
    apply elem_of_cons in Hk as [Hk|Hk]; [discriminate|].
    apply elem_of_cons in Hk as [Hk|Hk]; [discriminate|].
    by apply elem_of_nil in Hk.
  - reflexivity.
  - exists w'. split; [exact Hrun|]. apply (Hafter Measures).
    cbv [after read_order]. simpl. by left.
Defined.

(** C4, as stated, fails at the collection whose [read] raises.  The
    Entity built from the default file has its exposures at location 2,
    read from [entity_default.xls]; after [read] of a file on which the
    [read] of the exposures raises, the attribute [exposures] is bound to
    another object, at location 6, constructed during the call and empty:
    it is not the value it had before the call. *)
Lemma read_failure_rebinds_failing :
  let w := Demo.default_world in
  let r := Entity_read 1 (VStr "no_exposures.xls") VNone w in
  r.1 = Raise (OtherError "KeyError")
  ∧ attr_val (heap w) 1 "exposures" = Some (VRef 2)
  ∧ contents (heap w) (VRef 2)
    = Some (ObjData (ClsColl Exposures) ["entity_default.xls"])
  ∧ attr_val (heap r.2) 1 "exposures" = Some (VRef 6)
  ∧ contents (heap r.2) (VRef 6) = Some (ObjData (ClsColl Exposures) [])
  ∧ attr_val (heap r.2) 1 "exposures" ≠ attr_val (heap w) 1 "exposures".
Proof.
  repeat split; try (vm_compute; reflexivity).
  vm_compute. discriminate.
Qed.

Lemma check_first_invalid_witness :
  (∃ w', Entity_check 1 Demo.corrupt_world = (Raise ValueError, w')
         ∧ trace w' = [EvCheck 5; EvCheck 2; EvCheck 3])
  ∧ (∃ w', Entity_check 1 Demo.default_world = (Ok tt, w')).
Proof.
  split.
  - destruct (check_first_invalid Demo.corrupt_world 1 Demo.place ClsColl
                Demo.corrupt_sheets) as [Hfail _].
    + intros k. destruct k; split; vm_compute; reflexivity.
    + intros k k' Hne. destruct k, k'; try discriminate; by destruct Hne.
    + destruct (Hfail ImpactFuncs ValueError) as (w' & Hrun & Ht & _).
      * intros k Hk. destruct k; try reflexivity.
        exfalso. cbv [before check_order] in Hk. simpl in Hk.
        apply elem_of_cons in Hk as [Hk|Hk]; [discriminate|].
        apply elem_of_cons in Hk as [Hk|Hk]; [discriminate|].
        by apply elem_of_nil in Hk.
      * reflexivity.
      * exists w'. split; [exact Hrun | exact Ht].
  - destruct (check_first_invalid Demo.default_world 1 Demo.place ClsColl
                (fun _ => ["entity_default.xls"])) as [_ Hok].
    + intros k. destruct k; split; vm_compute; reflexivity.
    + intros k k' Hne. destruct k, k'; try discriminate; by destruct Hne.
    + destruct Hok as (w' & Hrun & _); [intros k; reflexivity|].
      exists w'. exact Hrun.
Defined.

Lemma wrong_type_rejected_witness :
  Entity_setattr 1 "exposures" (VRef 3) Demo.default_world
  = (Raise ValueError,
     World (heap Demo.default_world)
       (trace Demo.default_world
        ++ [EvLogError "Input value is not (sub)class of Exposures."])).
Proof.
  apply (wrong_type_rejected Demo.default_world 1 Exposures (VRef 3)).
  reflexivity.
Defined.

Lemma unguarded_assignment_witness :
  (Entity_setattr 1 "comment" (VInt 7) Demo.default_world).1 = Ok tt
  ∧ attr_val (heap (Entity_setattr 1 "comment" (VInt 7) Demo.default_world).2)
      1 "comment" = Some (VInt 7).
Proof.
  eassert (heap Demo.default_world !! 1%positive = Some (ObjEntity _)) as Hs.
  { vm_compute. reflexivity. }
  assert (¬ guarded "comment") as Hn.
  { intros [k Hk]. destruct k; discriminate. }
  destruct (unguarded_assignment Demo.default_world 1 _ "comment" (VInt 7) Hn Hs)
    as [_ Hrun].
  rewrite (Hrun eq_refl). split; [reflexivity|].
  unfold attr_val. cbn [snd heap]. by rewrite !lookup_insert_eq.
Defined.

Lemma read_forwards_arguments_witness :
  ∃ w' L,
    Entity_read 1 (VStr "entity.xls") (VStr "2018") Demo.default_world
    = (Ok tt, w')
    ∧ trace w' =
        trace Demo.default_world ++
        flat_map (fun k => [EvNew k []; EvRead (L k) (VStr "entity.xls") (VStr "2018")])
          read_order.
Proof.
  destruct (proj2 (read_forwards_arguments Demo.default_world 1
                     (VStr "entity.xls") (VStr "2018")) (fun _ => []))
    as (w' & L & Hrun & _ & Ht).
  - eexists. vm_compute. reflexivity.
  - intros k. reflexivity.
  - intros k. destruct k; reflexivity.
  - exists w', L. split; [exact Hrun | exact Ht].
Defined.

End Instances.

Section FurtherInstances.
Local Existing Instance Demo.collaborators.

Lemma guarded_assignment_accepts_witness :
  (Entity_setattr 1 "exposures" (VRef 9) Demo.derived_world).1 = Ok tt
  ∧ attr_val
      (heap (Entity_setattr 1 "exposures" (VRef 9) Demo.derived_world).2)
      1 "exposures" = Some (VRef 9).
Proof.
  eassert (heap Demo.derived_world !! 1%positive = Some (ObjEntity _)) as Hs.
  { vm_compute. reflexivity. }
  destruct (guarded_assignment_accepts Demo.derived_world 1 _ Exposures (VRef 9) Hs)
    as [_ Hrun].
  pose proof (Hrun eq_refl) as Hr. simpl attr in Hr.
  rewrite Hr. split; [reflexivity|].
  unfold attr_val. cbn [snd heap]. by rewrite !lookup_insert_eq.
Defined.



Lemma read_binds_new_objects_witness :
  ∃ w' (L : coll -> loc),
    Entity_read 1 (VStr "entity.xls") VNone Demo.default_world = (Ok tt, w')
    ∧ (∀ k k', k ≠ k' → L k ≠ L k').
Proof.
  destruct (read_binds_new_objects Demo.default_world 1 (VStr "entity.xls")
              VNone (fun _ => []))
    as (w' & L & Hrun & _ & Hd).
  - eexists. vm_compute. reflexivity.
  - intros k. reflexivity.
  - intros k. destruct k; reflexivity.
  - exists w', L. split; [exact Hrun | exact Hd].
Defined.

Lemma init_uses_instance_def_file_witness :
  ∃ w',
    Entity_init 1 VNone VNone Demo.shadowed_world = (Ok tt, w')
    ∧ trace w' =
        trace Demo.shadowed_world ++
        map (fun k => EvNew k [VStr "mine.xls"]) default_order.
Proof.
  apply (init_uses_instance_def_file Demo.shadowed_world 1 VNone
           (VStr "mine.xls") (fun _ => ["mine.xls"])).
  - eexists. vm_compute. reflexivity.
  - vm_compute. reflexivity.
  - intros k. reflexivity.
Defined.

Lemma read_then_check_witness :
  ∃ w',
    bind (Entity_read 1 (VStr "entity.xls") VNone) (fun _ => Entity_check 1)
      Demo.default_world = (Ok tt, w').
Proof.
  destruct (read_then_check Demo.default_world 1 (VStr "entity.xls") VNone
              (fun _ => []))
    as (w1 & L & _ & _ & Hok).
  - eexists. vm_compute. reflexivity.
  - intros k. reflexivity.
  - intros k. destruct k; reflexivity.
  - destruct Hok as (w' & Hrun & _); [intros k; destruct k; reflexivity|].
    exists w'. exact Hrun.
Defined.

Lemma check_fails_only_in_collections_witness :
  typed (heap (Entity_check 1 Demo.corrupt_world).2) 1.
Proof.
  apply (check_fails_only_in_collections Demo.corrupt_world 1).
  intros k. exists (VRef (Demo.place k)).
  destruct k; split; vm_compute; reflexivity.
Defined.

End FurtherInstances.

Section BrokenInstances.
Local Existing Instance Broken.collaborators.

Lemma read_constructor_failure_witness :
  ∃ w',
    Entity_read 1 (VStr "entity.xls") VNone Broken.world_with_measures
    = (Raise (OtherError "ImportError"), w')
    ∧ attr_val (heap w') 1 "measures" = Some (VRef 2)
    ∧ attr_val (heap w') 1 "disc_rates" = None.
Proof.
  destruct (read_constructor_failure Broken.world_with_measures 1
              (VStr "entity.xls") VNone (fun _ => []) DiscRates
              (OtherError "ImportError"))
    as (w' & L & Hrun & _ & Hkeep & _).
  - eexists. vm_compute. reflexivity.
  - intros k Hk. destruct k; try reflexivity.
    exfalso. cbv [before read_order] in Hk. simpl in Hk.
    apply elem_of_cons in Hk as [Hk|Hk]; [discriminate|].
    by apply elem_of_nil in Hk.
  - intros k Hk. destruct k; reflexivity.
  - reflexivity.
  - exists w'. split; [exact Hrun|]. split.
    + change "measures" with (attr Measures).
      rewrite (Hkeep Measures); [vm_compute; reflexivity|].
      cbv [after read_order]. simpl. right. right. by left.
    + change "disc_rates" with (attr DiscRates).
      rewrite (Hkeep DiscRates); [vm_compute; reflexivity|]. by left.
Defined.

Lemma Entity_default_failure_witness :
  ∃ w',
    Entity_new VNone VNone (World ∅ []) = (Raise (OtherError "ImportError"), w')
    ∧ trace w' =
        map (fun k => EvNew k [VStr "entity_default.xls"]) default_order.
Proof.
  destruct (@Entity_default_failure Broken.collaborators (World ∅ []) VNone
              (fun _ => ["entity_default.xls"]) DiscRates
              (OtherError "ImportError"))
    as (w' & Hrun & Ht & _).
  - intros k Hk. destruct k; try reflexivity.
    exfalso. cbv [before default_order] in Hk. simpl in Hk.
    repeat (apply elem_of_cons in Hk as [Hk|Hk]; [discriminate|]).
    by apply elem_of_nil in Hk.
  - reflexivity.
  - exists w'. split; [exact Hrun | exact Ht].
Defined.

End BrokenInstances.

(** * Where the claims as stated fail *)

Section Refutations.


(** C7, as stated, fails for the names that [object] manages itself:
    [__class__] is none of the four guarded names, and [e.__class__ = 7]
    raises [TypeError] and stores nothing. *)
Lemma class_assignment_rejected :
  ¬ guarded "__class__"
  ∧ @Entity_setattr Demo.collaborators 1 "__class__" (VInt 7) Demo.default_world
    = (Raise TypeError, Demo.default_world).
Proof.
  split.
  - intros [k Hk]. destruct k; discriminate.
  - vm_compute. reflexivity.
Qed.

(** C9, as stated, fails when the [read] that raises has already changed
    its receiver.  With collections whose failing [read] leaves a sheet
    behind, [read] of a file on which the [read] of the exposures raises
    leaves the attribute [exposures] bound to the new instance, at location
    6, which holds that sheet: it is not in the empty state in which the
    constructor built it. *)
Lemma failed_read_leaves_data :
  let w := Partial.default_world in
  let r := @Entity_read Partial.collaborators 1 (VStr "no_exposures.xls") VNone w in
  r.1 = Raise (OtherError "KeyError")
  ∧ @coll_init Partial.collaborators Exposures [] = inl []
  ∧ attr_val (heap r.2) 1 "exposures" = Some (VRef 6)
  ∧ contents (heap r.2) (VRef 6)
    = Some (@ObjData Partial.collaborators (ClsColl Exposures) ["partial"])
  ∧ contents (heap r.2) (VRef 6)
    ≠ Some (@ObjData Partial.collaborators (ClsColl Exposures) []).
Proof.
  repeat split; try (vm_compute; reflexivity).
  vm_compute. discriminate.
Qed.

End Refutations.
